(** * midi_theremin.ino: a shallow embedding of the Touch Board MIDI theremin

    The sketch runs on the Bare Conductive Touch Board (ATmega32U4, avr-gcc):
    [byte] is an unsigned 8-bit integer, [int] a signed 16-bit integer, and
    [float] and [double] are both IEEE-754 binary32.

    - bytes and ints are values of [Z]; the two byte operations that can
      wrap around ([instrument++], [instrument--]) write the wrap out;
    - floats are [spec_float] values computed with the binary32 instance of
      the Standard Library's IEEE-754 specification;
    - the global variables the sketch assigns form the record [globals]; the
      "Theremin setup" globals, which are never assigned, are constants;
    - statements run in a state monad over [globals] that also collects the
      trace of what the sketch does to the outside: writes to the MIDI serial
      port, writes to the LED pin, and the calls of [fscale];
    - the touch driver is an input: one [MPR121] snapshot per iteration of
      [loop], the data [MPR121.updateAll()] has just fetched;
    - [pow] comes from the C library and is a parameter of the model.

    The USB console ([Serial.print]), [delay] and the bring-up of the serial
    ports and of the touch driver in [setup] are left out. *)

From Stdlib Require Import ZArith List Bool Lia.
From Stdlib Require Import Floats.SpecFloat.
Import ListNotations.
Open Scope Z_scope.

(** ** Machine arithmetic *)

(** Storing an [int] into a [byte] keeps the low eight bits. *)
Definition byte_of_int (x : Z) : Z := x mod 256.

Module F32.

Definition prec : Z := 24.
Definition emax : Z := 128.

Definition float : Type := spec_float.

Definition add : float -> float -> float := SFadd prec emax.
Definition sub : float -> float -> float := SFsub prec emax.
Definition mul : float -> float -> float := SFmul prec emax.
Definition div : float -> float -> float := SFdiv prec emax.

(** The C comparisons [x < y] and [x >= y]; both are false on a NaN. *)
Definition lt (x y : float) : bool := SFltb x y.
Definition ge (x y : float) : bool := SFleb y x.

(** Conversion of an integer to [float]: exact up to 2^24, rounded to
    nearest even beyond. *)
Definition of_Z (z : Z) : float := binary_normalize prec emax z 0 false.

Definition zero : float := S754_zero false.
Definition nan : float := S754_nan.

Definition is_plus_zero (x : float) : bool :=
  match x with S754_zero false => true | _ => false end.
Definition is_nan (x : float) : bool :=
  match x with S754_nan => true | _ => false end.

(** The literals [-.1] and [0.95], rounded to binary32. *)
Definition minus_point_one : float := S754_finite true 13421773 (-27).
Definition point_95 : float := S754_finite false 15938355 (-24).

(** Conversion of a [float] to [byte]: the fractional part is discarded.
    C leaves the result undefined when the integral part does not fit or
    the value is not finite; the model takes the low eight bits, and 0 for
    an infinity or a NaN. *)
Definition byte_of_float (f : float) : Z :=
  match f with
  | S754_finite s m e =>
      let i := Z.shiftl (Zpos m) e in
      (if s then - i else i) mod 256
  | _ => 0
  end.

(** A stand-in for the C library's [pow], exact on what it covers: the
    exponent zero gives 1 and a positive integral exponent gives the
    repeated product; every other exponent gives NaN.  It is only used to
    run the model on concrete inputs. *)
Definition integral_exponent (y : float) : option N :=
  match y with
  | S754_zero _ => Some 0%N
  | S754_finite false m e =>
      if 0 <=? e then Some (Z.to_N (Z.shiftl (Zpos m) e))
      else if (Zpos m) mod (2 ^ (- e)) =? 0
           then Some (Z.to_N (Z.shiftl (Zpos m) e))
           else None
  | _ => None
  end.

Definition pow_ref (x y : float) : float :=
  match integral_exponent y with
  | Some N0 => of_Z 1
  | Some (Npos n) => Pos.iter_op mul n x
  | None => nan
  end.

End F32.

Import F32.

(** ** The mapper [fscale] *)

Section Mapper.

(** [pow] of the C library. *)
Variable pow : float -> float -> float.

(** [OriginalRange = originalMax - originalMin] *)
Definition OriginalRange (originalMin originalMax : float) : float :=
  sub originalMax originalMin.

(** The input value after the two out-of-range checks. *)
Definition clamp_input (originalMin originalMax inputValue : float) : float :=
  let inputValue :=
    if lt inputValue originalMin then originalMin else inputValue in
  if lt originalMax inputValue then originalMax else inputValue.

(** [normalizedCurVal = zeroRefCurVal / OriginalRange] *)
Definition normalizedCurVal (originalMin originalMax inputValue : float)
  : float :=
  let zeroRefCurVal :=
    sub (clamp_input originalMin originalMax inputValue) originalMin in
  div zeroRefCurVal (OriginalRange originalMin originalMax).

(** The exponent computed from the [curve] argument. *)
Definition curve_exponent (curve : float) : float :=
  let curve := if lt (of_Z 10) curve then of_Z 10 else curve in
  let curve := if lt curve (of_Z (-10)) then of_Z (-10) else curve in
  let curve := mul curve minus_point_one in
  pow (of_Z 10) curve.

Definition fscale
  (originalMin originalMax newBegin newEnd inputValue curve : float)
  : float :=
  let curve := curve_exponent curve in
  let '(NewRange, invFlag) :=
    if lt newBegin newEnd
    then (sub newEnd newBegin, false)
    else (sub newBegin newEnd, true) in
  let normalized := normalizedCurVal originalMin originalMax inputValue in
  if lt originalMax originalMin then zero
  else if negb invFlag
       then add (mul (pow normalized curve) NewRange) newBegin
       else sub newBegin (mul (pow normalized curve) NewRange).

End Mapper.

(** ** The world of the sketch *)

(** What the sketch does to the outside, in program order.  [FscaleCall]
    records a call of the mapper with the arguments of the call site, before
    their conversion to [float]. *)
Inductive event : Type :=
| DigitalWrite (pin : Z) (high : bool)
| SerialWrite (b : Z)
| FscaleCall (originalMin originalMax newBegin newEnd inputValue curve : Z).

(** The bytes written to the MIDI serial port. *)
Fixpoint midi (tr : list event) : list Z :=
  match tr with
  | [] => []
  | SerialWrite b :: tr => b :: midi tr
  | _ :: tr => midi tr
  end.

(** The calibration ranges [(originalMin, originalMax)] the mapper was
    called with. *)
Fixpoint fscale_ranges (tr : list event) : list (Z * Z) :=
  match tr with
  | [] => []
  | FscaleCall mn mx _ _ _ _ :: tr => (mn, mx) :: fscale_ranges tr
  | _ :: tr => fscale_ranges tr
  end.

(** One snapshot of the touch driver, as read after [MPR121.updateAll()]. *)
Record MPR121 : Type := {
  isNewTouch : Z -> bool;
  getFilteredData : Z -> Z
}.

(** Touch Board pin setup *)
Definition pin_pitch : Z := 0.
Definition pin_volume : Z := 1.
Definition pin_instr_up : Z := 2.
Definition pin_instr_down : Z := 3.

(** Theremin setup *)
Definition min_note : Z := 40.
Definition max_note : Z := 100.
Definition min_volume : Z := 0.
Definition max_volume : Z := 127.
Definition direction_pitch : Z := 0.
Definition nonlinear_pitch : Z := -10.
Definition direction_volume : Z := 0.
Definition nonlinear_volume : Z := -10.

(** midi instrument setup *)
Definition min_instrument : Z := 0.
Definition max_instrument : Z := 127.

(** VS1053 setup *)
Definition resetMIDI : Z := 8.
Definition ledPin : Z := 13.
Definition velocity : Z := 60.

(** The globals the sketch assigns. *)
Record globals : Type := {
  instrument : Z;
  level_pitch : Z;
  level_pitch_old : Z;
  level_volume : Z;
  level_volume_old : Z;
  note : Z;
  note_old : Z;
  volume : Z;
  volume_old : Z;
  min_level_pitch : Z;
  max_level_pitch : Z;
  min_level_volume : Z;
  max_level_volume : Z
}.

(** Their initial values. *)
Definition initial : globals := {|
  instrument := 80 - 1;
  level_pitch := 0;
  level_pitch_old := 0;
  level_volume := 0;
  level_volume_old := 0;
  note := 0;
  note_old := 0;
  volume := 0;
  volume_old := 0;
  min_level_pitch := 1000;
  max_level_pitch := 0;
  min_level_volume := 1000;
  max_level_volume := 0
|}.

Definition set_instrument (v : Z) (g : globals) : globals :=
  {| instrument := v; level_pitch := level_pitch g;
     level_pitch_old := level_pitch_old g; level_volume := level_volume g;
     level_volume_old := level_volume_old g; note := note g;
     note_old := note_old g; volume := volume g; volume_old := volume_old g;
     min_level_pitch := min_level_pitch g;
     max_level_pitch := max_level_pitch g;
     min_level_volume := min_level_volume g;
     max_level_volume := max_level_volume g |}.

Definition set_level_pitch (v : Z) (g : globals) : globals :=
  {| instrument := instrument g; level_pitch := v;
     level_pitch_old := level_pitch_old g; level_volume := level_volume g;
     level_volume_old := level_volume_old g; note := note g;
     note_old := note_old g; volume := volume g; volume_old := volume_old g;
     min_level_pitch := min_level_pitch g;
     max_level_pitch := max_level_pitch g;
     min_level_volume := min_level_volume g;
     max_level_volume := max_level_volume g |}.

Definition set_level_pitch_old (v : Z) (g : globals) : globals :=
  {| instrument := instrument g; level_pitch := level_pitch g;
     level_pitch_old := v; level_volume := level_volume g;
     level_volume_old := level_volume_old g; note := note g;
     note_old := note_old g; volume := volume g; volume_old := volume_old g;
     min_level_pitch := min_level_pitch g;
     max_level_pitch := max_level_pitch g;
     min_level_volume := min_level_volume g;
     max_level_volume := max_level_volume g |}.

Definition set_level_volume (v : Z) (g : globals) : globals :=
  {| instrument := instrument g; level_pitch := level_pitch g;
     level_pitch_old := level_pitch_old g; level_volume := v;
     level_volume_old := level_volume_old g; note := note g;
     note_old := note_old g; volume := volume g; volume_old := volume_old g;
     min_level_pitch := min_level_pitch g;
     max_level_pitch := max_level_pitch g;
     min_level_volume := min_level_volume g;
     max_level_volume := max_level_volume g |}.

Definition set_level_volume_old (v : Z) (g : globals) : globals :=
  {| instrument := instrument g; level_pitch := level_pitch g;
     level_pitch_old := level_pitch_old g; level_volume := level_volume g;
     level_volume_old := v; note := note g;
     note_old := note_old g; volume := volume g; volume_old := volume_old g;
     min_level_pitch := min_level_pitch g;
     max_level_pitch := max_level_pitch g;
     min_level_volume := min_level_volume g;
     max_level_volume := max_level_volume g |}.

Definition set_note (v : Z) (g : globals) : globals :=
  {| instrument := instrument g; level_pitch := level_pitch g;
     level_pitch_old := level_pitch_old g; level_volume := level_volume g;
     level_volume_old := level_volume_old g; note := v;
     note_old := note_old g; volume := volume g; volume_old := volume_old g;
     min_level_pitch := min_level_pitch g;
     max_level_pitch := max_level_pitch g;
     min_level_volume := min_level_volume g;
     max_level_volume := max_level_volume g |}.

Definition set_note_old (v : Z) (g : globals) : globals :=
  {| instrument := instrument g; level_pitch := level_pitch g;
     level_pitch_old := level_pitch_old g; level_volume := level_volume g;
     level_volume_old := level_volume_old g; note := note g;
     note_old := v; volume := volume g; volume_old := volume_old g;
     min_level_pitch := min_level_pitch g;
     max_level_pitch := max_level_pitch g;
     min_level_volume := min_level_volume g;
     max_level_volume := max_level_volume g |}.

Definition set_volume (v : Z) (g : globals) : globals :=
  {| instrument := instrument g; level_pitch := level_pitch g;
     level_pitch_old := level_pitch_old g; level_volume := level_volume g;
     level_volume_old := level_volume_old g; note := note g;
     note_old := note_old g; volume := v; volume_old := volume_old g;
     min_level_pitch := min_level_pitch g;
     max_level_pitch := max_level_pitch g;
     min_level_volume := min_level_volume g;
     max_level_volume := max_level_volume g |}.

Definition set_volume_old (v : Z) (g : globals) : globals :=
  {| instrument := instrument g; level_pitch := level_pitch g;
     level_pitch_old := level_pitch_old g; level_volume := level_volume g;
     level_volume_old := level_volume_old g; note := note g;
     note_old := note_old g; volume := volume g; volume_old := v;
     min_level_pitch := min_level_pitch g;
     max_level_pitch := max_level_pitch g;
     min_level_volume := min_level_volume g;
     max_level_volume := max_level_volume g |}.

Definition set_min_level_pitch (v : Z) (g : globals) : globals :=
  {| instrument := instrument g; level_pitch := level_pitch g;
     level_pitch_old := level_pitch_old g; level_volume := level_volume g;
     level_volume_old := level_volume_old g; note := note g;
     note_old := note_old g; volume := volume g; volume_old := volume_old g;
     min_level_pitch := v;
     max_level_pitch := max_level_pitch g;
     min_level_volume := min_level_volume g;
     max_level_volume := max_level_volume g |}.

Definition set_max_level_pitch (v : Z) (g : globals) : globals :=
  {| instrument := instrument g; level_pitch := level_pitch g;
     level_pitch_old := level_pitch_old g; level_volume := level_volume g;
     level_volume_old := level_volume_old g; note := note g;
     note_old := note_old g; volume := volume g; volume_old := volume_old g;
     min_level_pitch := min_level_pitch g;
     max_level_pitch := v;
     min_level_volume := min_level_volume g;
     max_level_volume := max_level_volume g |}.

Definition set_min_level_volume (v : Z) (g : globals) : globals :=
  {| instrument := instrument g; level_pitch := level_pitch g;
     level_pitch_old := level_pitch_old g; level_volume := level_volume g;
     level_volume_old := level_volume_old g; note := note g;
     note_old := note_old g; volume := volume g; volume_old := volume_old g;
     min_level_pitch := min_level_pitch g;
     max_level_pitch := max_level_pitch g;
     min_level_volume := v;
     max_level_volume := max_level_volume g |}.

Definition set_max_level_volume (v : Z) (g : globals) : globals :=
  {| instrument := instrument g; level_pitch := level_pitch g;
     level_pitch_old := level_pitch_old g; level_volume := level_volume g;
     level_volume_old := level_volume_old g; note := note g;
     note_old := note_old g; volume := volume g; volume_old := volume_old g;
     min_level_pitch := min_level_pitch g;
     max_level_pitch := max_level_pitch g;
     min_level_volume := min_level_volume g;
     max_level_volume := v |}.

(** ** Statements: state over [globals], with a trace *)

Definition M (A : Type) : Type := globals -> A * globals * list event.

Definition ret {A : Type} (a : A) : M A := fun g => (a, g, []).

Definition bind {A B : Type} (c : M A) (k : A -> M B) : M B :=
  fun g =>
    let '(a, g1, t1) := c g in
    let '(b, g2, t2) := k a g1 in
    (b, g2, t1 ++ t2).

Declare Scope sketch_scope.
Delimit Scope sketch_scope with sketch.
Notation "x <- c ;; k" := (bind c (fun x => k))
  (at level 61, c at next level, right associativity) : sketch_scope.
Notation "c ;; k" := (bind c (fun _ => k))
  (at level 61, right associativity) : sketch_scope.
Open Scope sketch_scope.

(** Reading a global, assigning one, and an effect on the outside. *)
Definition rd {A : Type} (field : globals -> A) : M A :=
  fun g => (field g, g, []).
Definition wr (set : Z -> globals -> globals) (v : Z) : M unit :=
  fun g => (tt, set v g, []).
Definition emit (e : event) : M unit := fun g => (tt, g, [e]).

(** [if (b) { c }] *)
Definition when (b : bool) (c : M unit) : M unit := if b then c else ret tt.

(** The globals and the trace a statement ends with. *)
Definition state_of {A : Type} (c : M A) (g : globals) : globals :=
  snd (fst (c g)).
Definition trace_of {A : Type} (c : M A) (g : globals) : list event :=
  snd (c g).

Definition digitalWrite (pin : Z) (high : bool) : M unit :=
  emit (DigitalWrite pin high).
Definition mySerial_write (b : Z) : M unit := emit (SerialWrite b).

(** ** Subfunctions *)

Definition change_instrument (change : Z) : M unit :=
  if change =? 1 then
    i <- rd instrument ;;
    wr set_instrument (byte_of_int (i + 1)) ;;
    i <- rd instrument ;;
    when (max_instrument <? i) (wr set_instrument min_instrument)
  else if change =? -1 then
    i <- rd instrument ;;
    wr set_instrument (byte_of_int (i - 1)) ;;
    i <- rd instrument ;;
    when (i <? min_instrument) (wr set_instrument max_instrument)
  else ret tt.

Definition talkMIDI (cmd data1 data2 : Z) : M unit :=
  digitalWrite ledPin true ;;
  mySerial_write cmd ;;
  mySerial_write data1 ;;
  when (Z.land cmd 0xF0 <=? 0xB0) (mySerial_write data2) ;;
  digitalWrite ledPin false.

Definition noteOn (channel note attack_velocity : Z) : M unit :=
  talkMIDI (Z.lor 0x90 channel) note attack_velocity.

Definition noteOff (channel note release_velocity : Z) : M unit :=
  talkMIDI (Z.lor 0x80 channel) note release_velocity.

Definition setupMidi : M unit :=
  v <- rd volume ;;
  talkMIDI 0xB0 0x07 v ;;
  talkMIDI 0xB0 0 0x00 ;;
  i <- rd instrument ;;
  talkMIDI 0xC0 i 0.

(** [setup]: when [MPR121.begin] fails the sketch stops in [while(1)] and the
    result is [false]; otherwise the VS1053 is reset and MIDI initialised. *)
Definition setup (mpr_begin : bool) : M bool :=
  if negb mpr_begin then ret false
  else
    digitalWrite resetMIDI false ;;
    digitalWrite resetMIDI true ;;
    setupMidi ;;
    ret true.

(** ** The poll loop *)

Section Loop.

Variable pow : float -> float -> float.

(** A call [fscale(a, b, c, d, e, f)] on integer arguments. *)
Definition call_fscale
  (originalMin originalMax newBegin newEnd inputValue curve : Z) : M float :=
  emit (FscaleCall originalMin originalMax newBegin newEnd inputValue curve) ;;
  ret (fscale pow (of_Z originalMin) (of_Z originalMax) (of_Z newBegin)
         (of_Z newEnd) (of_Z inputValue) (of_Z curve)).

(** [// change instrument] *)
Definition loop_instrument (mpr : MPR121) : M unit :=
  if isNewTouch mpr pin_instr_up then
    change_instrument 1 ;;
    i <- rd instrument ;;
    talkMIDI 0xC0 i 0 ;;
    n <- rd note_old ;;
    noteOff 0 n velocity ;;
    n <- rd note ;;
    noteOff 0 n velocity
  else if isNewTouch mpr pin_instr_down then
    change_instrument (-1) ;;
    i <- rd instrument ;;
    talkMIDI 0xC0 i 0 ;;
    n <- rd note_old ;;
    noteOff 0 n velocity ;;
    n <- rd note ;;
    noteOff 0 n velocity
  else ret tt.

(** [// dynamically setup level max and mins], pitch channel *)
Definition calibrate_pitch : M unit :=
  l <- rd level_pitch ;;
  mx <- rd max_level_pitch ;;
  when (mx <? l) (wr set_max_level_pitch l) ;;
  mn <- rd min_level_pitch ;;
  when (l <? mn) (wr set_min_level_pitch l).

(** [// set note]: the assignment to [note] *)
Definition set_note_from_level : M unit :=
  l <- rd level_pitch ;;
  mn <- rd min_level_pitch ;;
  mx <- rd max_level_pitch ;;
  if direction_pitch =? 0 then
    f <- call_fscale mn mx max_note min_note l nonlinear_pitch ;;
    wr set_note (byte_of_float f)
  else if direction_pitch =? 1 then
    f <- call_fscale mn mx min_note max_note l nonlinear_pitch ;;
    wr set_note (byte_of_float f)
  else ret tt.

(** [// turn off notes if level rises near baseline], with its [else] *)
Definition update_note : M unit :=
  l <- rd level_pitch ;;
  mn <- rd min_level_pitch ;;
  mx <- rd max_level_pitch ;;
  f <- call_fscale mn mx 0 1 l nonlinear_pitch ;;
  if ge f point_95 then
    n <- rd note_old ;;
    noteOff 0 n velocity ;;
    n <- rd note ;;
    noteOff 0 n velocity ;;
    n <- rd note ;;
    wr set_note_old n
  else
    set_note_from_level ;;
    n <- rd note ;;
    n_old <- rd note_old ;;
    when (negb (n =? n_old)) (
      noteOn 0 n velocity ;;
      noteOff 0 n_old velocity ;;
      wr set_note_old n).

(** [// pitch] *)
Definition loop_pitch (mpr : MPR121) : M unit :=
  l <- rd level_pitch ;;
  wr set_level_pitch_old l ;;
  wr set_level_pitch (getFilteredData mpr pin_pitch) ;;
  l <- rd level_pitch ;;
  l_old <- rd level_pitch_old ;;
  when (negb (l =? l_old)) (calibrate_pitch ;; update_note).

(** [// set volume]: the assignment to [volume] *)
Definition set_volume_from_level : M unit :=
  l <- rd level_volume ;;
  mn <- rd min_level_volume ;;
  mx <- rd max_level_volume ;;
  if direction_volume =? 0 then
    f <- call_fscale mn mx max_volume min_volume l nonlinear_volume ;;
    wr set_volume (byte_of_float f)
  else if direction_volume =? 1 then
    f <- call_fscale mn mx min_volume max_volume l nonlinear_volume ;;
    wr set_volume (byte_of_float f)
  else ret tt.

(** [// set volume]: the block after [else] *)
Definition update_volume : M unit :=
  set_volume_from_level ;;
  v <- rd volume ;;
  v_old <- rd volume_old ;;
  when (negb (v =? v_old)) (
    talkMIDI 0xB0 0x07 v ;;
    wr set_volume_old v).

(** [// volume] *)
Definition loop_volume (mpr : MPR121) : M unit :=
  l <- rd level_volume ;;
  wr set_level_volume_old l ;;
  wr set_level_volume (getFilteredData mpr pin_volume) ;;
  l <- rd level_volume ;;
  l_old <- rd level_volume_old ;;
  when (negb (l =? l_old)) (
    mx <- rd max_level_volume ;;
    when (mx <? l) (wr set_max_level_volume l) ;;
    mn <- rd min_level_volume ;;
    if l <? mn then wr set_min_level_volume l
    else update_volume).

Definition loop (mpr : MPR121) : M unit :=
  loop_instrument mpr ;;
  loop_pitch mpr ;;
  loop_volume mpr.

(** [loop] run once per snapshot, in order. *)
Fixpoint loops (polls : list MPR121) : M unit :=
  match polls with
  | [] => ret tt
  | mpr :: polls => loop mpr ;; loops polls
  end.

(** The sketch: [setup], then [loop] for ever (here: for the snapshots
    given). *)
Definition sketch (mpr_begin : bool) (polls : list MPR121) : M unit :=
  ok <- setup mpr_begin ;;
  if ok then loops polls else ret tt.

End Loop.

(** ** Inputs for concrete runs *)

(** A snapshot with the given new-touch flags of the two instrument pads and
    the given filtered data of the pitch and the volume pad. *)
Definition snapshot (up down : bool) (pitch vol : Z) : MPR121 := {|
  isNewTouch := fun pin =>
    if pin =? pin_instr_up then up
    else if pin =? pin_instr_down then down
    else false;
  getFilteredData := fun pin =>
    if pin =? pin_pitch then pitch
    else if pin =? pin_volume then vol
    else 0
|}.

(** No instrument pad newly touched. *)
Definition levels (pitch vol : Z) : MPR121 := snapshot false false pitch vol.

(** ** Quantities the properties speak of *)

(** The readings of the two pads over a run, oldest first. *)
Definition pitch_readings (polls : list MPR121) : list Z :=
  map (fun mpr => getFilteredData mpr pin_pitch) polls.
Definition volume_readings (polls : list MPR121) : list Z :=
  map (fun mpr => getFilteredData mpr pin_volume) polls.

(** The readings from the first one that differs from 0, the initial value
    of [level_pitch] and [level_volume]. *)
Fixpoint from_first_nonzero (readings : list Z) : list Z :=
  match readings with
  | [] => []
  | x :: readings =>
      if x =? 0 then from_first_nonzero readings else x :: readings
  end.

Section Mapped.

Variable pow : float -> float -> float.

(** The value compared with 0.95 in [loop], for the calibration range
    [mn], [mx] and the level [l]. *)
Definition proximity_fraction (mn mx l : Z) : float :=
  fscale pow (of_Z mn) (of_Z mx) (of_Z 0) (of_Z 1) (of_Z l)
    (of_Z nonlinear_pitch).

(** The note and the volume [loop] computes, with [direction_pitch] and
    [direction_volume] being 0. *)
Definition mapped_note (mn mx l : Z) : Z :=
  byte_of_float
    (fscale pow (of_Z mn) (of_Z mx) (of_Z max_note) (of_Z min_note) (of_Z l)
       (of_Z nonlinear_pitch)).

Definition mapped_volume (mn mx l : Z) : Z :=
  byte_of_float
    (fscale pow (of_Z mn) (of_Z mx) (of_Z max_volume) (of_Z min_volume)
       (of_Z l) (of_Z nonlinear_volume)).

(** The MIDI bytes written by the pitch part of [loop] over a run. *)
Fixpoint pitch_midi (polls : list MPR121) (g : globals) : list Z :=
  match polls with
  | [] => []
  | mpr :: polls =>
      midi (trace_of (loop_pitch pow mpr) (state_of (loop_instrument mpr) g))
      ++ pitch_midi polls (state_of (loop pow mpr) g)
  end.

(** Every poll of the run whose pitch reading differs from the previous one
    has a proximity fraction below 0.95 and computes the note [n]. *)
Fixpoint computes_note (n : Z) (polls : list MPR121) (g : globals) : bool :=
  match polls with
  | [] => true
  | mpr :: polls =>
      let l := getFilteredData mpr pin_pitch in
      let mn := Z.min (min_level_pitch g) l in
      let mx := Z.max (max_level_pitch g) l in
      (if l =? level_pitch g then true
       else lt (proximity_fraction mn mx l) point_95
            && (mapped_note mn mx l =? n))
      && computes_note n polls (state_of (loop pow mpr) g)
  end.

End Mapped.

(** ** Further readings of a trace *)

(** The calibration range and the input value of every call of the
    mapper: [(originalMin, originalMax, inputValue)]. *)
Fixpoint fscale_inputs (tr : list event) : list (Z * Z * Z) :=
  match tr with
  | [] => []
  | FscaleCall mn mx _ _ v _ :: tr => (mn, mx, v) :: fscale_inputs tr
  | _ :: tr => fscale_inputs tr
  end.

(** The input value of a call lies inside the range of the call. *)
Definition inside_range (c : Z * Z * Z) : Prop :=
  let '(mn, mx, v) := c in mn <= v <= mx.

(** The level of the LED pin after a trace, from the level [led]. *)
Fixpoint led_after (led : bool) (tr : list event) : bool :=
  match tr with
  | [] => led
  | DigitalWrite pin high :: tr =>
      led_after (if pin =? ledPin then high else led) tr
  | _ :: tr => led_after led tr
  end.

(** Whether every byte of the trace is written to the MIDI port while the
    LED pin is high, from the level [led]. *)
Fixpoint written_lit (led : bool) (tr : list event) : bool :=
  match tr with
  | [] => true
  | DigitalWrite pin high :: tr =>
      written_lit (if pin =? ledPin then high else led) tr
  | SerialWrite _ :: tr => led && written_lit led tr
  | FscaleCall _ _ _ _ _ _ :: tr => written_lit led tr
  end.

(** The largest and the least of a base value and a list of readings. *)
Definition largest (base : Z) (readings : list Z) : Z :=
  fold_left Z.max readings base.
Definition least (base : Z) (readings : list Z) : Z :=
  fold_left Z.min readings base.

(** The values of a [byte]. *)
Definition is_byte (x : Z) : Prop := 0 <= x < 256.

(** * Properties *)

(** ** The model on concrete values *)

(** The two literals are the binary32 values nearest to -0.1 and 0.95. *)
Example minus_point_one_rounded :
  minus_point_one = SFopp (div (of_Z 1) (of_Z 10)).
Proof. reflexivity. Qed.

Example point_95_rounded : point_95 = div (of_Z 95) (of_Z 100).
Proof. reflexivity. Qed.

(** [nonlinear_pitch = -10] is turned into the exponent ten, as far as the
    stand-in for [pow] goes. *)
Example exponent_of_minus_ten :
  curve_exponent pow_ref (of_Z nonlinear_pitch) = of_Z 10.
Proof. reflexivity. Qed.

(** Halfway through the input range, descending onto the notes, linear. *)
Example fscale_midpoint :
  fscale pow_ref (of_Z 100) (of_Z 200) (of_Z 100) (of_Z 40) (of_Z 150)
    (of_Z 0) = of_Z 70.
Proof. reflexivity. Qed.

(** What [setup] sends: volume, bank select, program change to the
    ocarina. *)
Example setup_midi_stream :
  midi (trace_of (setup true) initial) = [0xB0; 0x07; 0; 0xB0; 0; 0; 0xC0; 79].
Proof. reflexivity. Qed.

(** ** Statements *)

Lemma state_of_bind {A B : Type} (c : M A) (k : A -> M B) (g : globals) :
  state_of (bind c k) g = state_of (k (fst (fst (c g)))) (state_of c g).
Proof.
  unfold state_of, bind.
  destruct (c g) as [[a g1] t1]; simpl.
  destruct (k a g1) as [[b g2] t2]; reflexivity.
Qed.

Lemma trace_of_bind {A B : Type} (c : M A) (k : A -> M B) (g : globals) :
  trace_of (bind c k) g =
  trace_of c g ++ trace_of (k (fst (fst (c g)))) (state_of c g).
Proof.
  unfold trace_of, state_of, bind.
  destruct (c g) as [[a g1] t1]; simpl.
  destruct (k a g1) as [[b g2] t2]; reflexivity.
Qed.

Lemma midi_app (t1 t2 : list event) : midi (t1 ++ t2) = midi t1 ++ midi t2.
Proof.
  induction t1 as [|e t1 IH]; simpl; [reflexivity|].
  destruct e; simpl; rewrite IH; reflexivity.
Qed.

Lemma fscale_ranges_app (t1 t2 : list event) :
  fscale_ranges (t1 ++ t2) = fscale_ranges t1 ++ fscale_ranges t2.
Proof.
  induction t1 as [|e t1 IH]; simpl; [reflexivity|].
  destruct e; simpl; rewrite IH; reflexivity.
Qed.

(** Unfolds the statements of the sketch down to functions on [globals]. *)
Ltac unfold_sketch :=
  unfold state_of, trace_of, loop, loop_volume, update_volume,
    set_volume_from_level, loop_pitch, update_note, set_note_from_level,
    calibrate_pitch, loop_instrument, call_fscale, setupMidi, noteOn, noteOff,
    talkMIDI, change_instrument, mySerial_write, digitalWrite, when, bind, rd,
    wr, emit, ret;
  unfold set_instrument, set_level_pitch, set_level_pitch_old,
    set_level_volume, set_level_volume_old, set_note, set_note_old,
    set_volume, set_volume_old, set_min_level_pitch, set_max_level_pitch,
    set_min_level_volume, set_max_level_volume;
  simpl.

(** Splits on the condition of an [if] in the goal and simplifies. *)
Ltac split_if :=
  match goal with
  | |- context [if ?b then _ else _] =>
      lazymatch b with
      | context [if _ then _ else _] => fail
      | _ => destruct b eqn:?; simpl in *
      end
  end.

(** Turns the boolean tests among the hypotheses into propositions. *)
Ltac bool_facts :=
  repeat match goal with
    | H : negb _ = true |- _ => apply negb_true_iff in H
    | H : negb _ = false |- _ => apply negb_false_iff in H
    | H : (_ <? _) = true |- _ => apply Z.ltb_lt in H
    | H : (_ <? _) = false |- _ => apply Z.ltb_ge in H
    | H : (_ =? _) = true |- _ => apply Z.eqb_eq in H
    | H : (_ =? _) = false |- _ => apply Z.eqb_neq in H
    end.

(** ** MIDI encoder *)

(** The masked status byte is a multiple of 16. *)
Lemma high_nibble_multiple (cmd : Z) :
  Z.land cmd 0xF0 = 16 * Z.land (Z.shiftr cmd 4) 0x0F.
Proof.
  change 16 with (2 ^ 4). rewrite Z.mul_comm, <- Z.shiftl_mul_pow2 by lia.
  apply Z.bits_inj'. intros n Hn.
  rewrite Z.land_spec.
  destruct (Z.ltb_spec n 4) as [Hlt|Hge].
  - rewrite Z.shiftl_spec_low by lia.
    assert (Hc : n = 0 \/ n = 1 \/ n = 2 \/ n = 3) by lia.
    destruct Hc as [->|[->|[->| ->]]]; simpl; apply andb_false_r.
  - rewrite Z.shiftl_spec by lia.
    rewrite Z.land_spec, Z.shiftr_spec by lia.
    replace (n - 4 + 4) with n by lia.
    f_equal.
    destruct (Z.ltb_spec n 8) as [Hlt8|Hge8].
    + assert (Hc : n = 4 \/ n = 5 \/ n = 6 \/ n = 7) by lia.
      destruct Hc as [->|[->|[->| ->]]]; reflexivity.
    + rewrite !Z.bits_above_log2; try reflexivity; simpl; lia.
Qed.

(** C8.  [talkMIDI(cmd, data1, data2)] writes the bytes [cmd, data1, data2]
    to the MIDI serial port when the high nibble of [cmd] is at most 0xB0 and
    the bytes [cmd, data1] when it is 0xC0 or more, and one of the two is
    always the case; the number of bytes is the same for two status bytes
    with the same high nibble, whatever the data; the three arguments are
    written as they come, for any values at all, and no global changes. *)
Theorem talkMIDI_wire_format (cmd data1 data2 : Z) (g : globals) :
  (Z.land cmd 0xF0 <= 0xB0 ->
   midi (trace_of (talkMIDI cmd data1 data2) g) = [cmd; data1; data2]) /\
  (0xC0 <= Z.land cmd 0xF0 ->
   midi (trace_of (talkMIDI cmd data1 data2) g) = [cmd; data1]) /\
  (Z.land cmd 0xF0 <= 0xB0 \/ 0xC0 <= Z.land cmd 0xF0) /\
  (forall cmd' data1' data2' g',
     Z.land cmd' 0xF0 = Z.land cmd 0xF0 ->
     length (midi (trace_of (talkMIDI cmd' data1' data2') g')) =
     length (midi (trace_of (talkMIDI cmd data1 data2) g))) /\
  state_of (talkMIDI cmd data1 data2) g = g.
Proof.
  repeat split.
  - intros H. unfold_sketch. simpl.
    destruct (Z.leb_spec (Z.land cmd 240) 176); [reflexivity | lia].
  - intros H. unfold_sketch. simpl.
    destruct (Z.leb_spec (Z.land cmd 240) 176); [lia | reflexivity].
  - rewrite high_nibble_multiple. lia.
  - intros cmd' data1' data2' g' H. unfold_sketch. simpl. rewrite H.
    destruct (Z.land cmd 240 <=? 176); reflexivity.
  - unfold_sketch. simpl.
    destruct (Z.land cmd 240 <=? 176); reflexivity.
Qed.

(** A note-on takes the first case, a program change the second. *)
Lemma talkMIDI_wire_format_witness :
  midi (trace_of (talkMIDI 0x90 69 60) initial) = [0x90; 69; 60] /\
  midi (trace_of (talkMIDI 0xC0 79 0) initial) = [0xC0; 79].
Proof.
  split.
  - apply (proj1 (talkMIDI_wire_format 0x90 69 60 initial)).
    vm_compute. discriminate.
  - apply (proj1 (proj2 (talkMIDI_wire_format 0xC0 79 0 initial))).
    vm_compute. discriminate.
Defined.

(** ** Instrument selector *)

(** C1.  What [change_instrument] does to an index between 0 and 127.  Up:
    the index goes up by one and from 127 to 0.  Down: the index goes down
    by one, and from 0 it goes to 255, not to 127: the byte wraps on
    [instrument--], after which [instrument < min_instrument] is false. *)
Theorem change_instrument_steps (g : globals) :
  0 <= instrument g <= 127 ->
  instrument (state_of (change_instrument 1) g) =
    (if instrument g =? 127 then 0 else instrument g + 1) /\
  instrument (state_of (change_instrument (-1)) g) =
    (if instrument g =? 0 then 255 else instrument g - 1).
Proof.
  intros H. unfold_sketch. unfold byte_of_int, max_instrument, min_instrument.
  simpl. split.
  - destruct (Z.eqb_spec (instrument g) 127) as [->|Hne]; [reflexivity|].
    rewrite Z.mod_small by lia.
    destruct (Z.ltb_spec 127 (instrument g + 1)); [lia | reflexivity].
  - destruct (Z.eqb_spec (instrument g) 0) as [->|Hne]; [reflexivity|].
    rewrite Z.mod_small by lia.
    destruct (Z.ltb_spec (instrument g - 1) 0); [lia | reflexivity].
Qed.

(** At index 0: up gives 1, down gives 255. *)
Lemma change_instrument_steps_witness :
  instrument (state_of (change_instrument 1) (set_instrument 0 initial)) = 1 /\
  instrument (state_of (change_instrument (-1)) (set_instrument 0 initial))
  = 255.
Proof.
  apply (change_instrument_steps (set_instrument 0 initial)).
  simpl. lia.
Defined.

(** From power-up, eighty touches of the "down" pad: the last one leaves the
    index at 255 and sends the program change 0xC0 255. *)
Example eighty_times_down :
  let polls := repeat (snapshot false true 0 0) 79 in
  let g := state_of (sketch pow_ref true polls) initial in
  instrument g = 0 /\
  instrument (state_of (loop pow_ref (snapshot false true 0 0)) g) = 255 /\
  midi (trace_of (loop pow_ref (snapshot false true 0 0)) g)
  = [0xC0; 255; 0x80; 0; 60; 0x80; 0; 60].
Proof. vm_compute. repeat split. Qed.

(** ** Comparisons of floats *)

Lemma SFcompare_Lt_swap (x y : float) :
  SFcompare x y = Some Lt -> SFcompare y x = Some Gt.
Proof.
  destruct x as [sx|sx| |sx mx ex], y as [sy|sy| |sy my ey]; simpl;
    try discriminate;
    try (destruct sx; try destruct sy; simpl; congruence).
  assert (Hm : Pos.compare_cont Eq my mx = CompOpp (Pos.compare_cont Eq mx my))
    by (rewrite Pos.compare_cont_antisym; reflexivity).
  destruct sx, sy; simpl; try congruence;
    rewrite (Z.compare_antisym ex ey), Hm;
    destruct (ex ?= ey); simpl; try congruence;
    destruct (Pos.compare_cont Eq mx my); simpl; congruence.
Qed.

(** [x < y] excludes [x >= y]. *)
Lemma lt_not_ge (x y : float) : lt x y = true -> ge x y = false.
Proof.
  unfold lt, ge, SFltb, SFleb. intros H.
  destruct (SFcompare x y) as [[| |]|] eqn:E; try discriminate.
  rewrite (SFcompare_Lt_swap x y E). reflexivity.
Qed.

(** ** What each part of [loop] leaves alone *)

#[local] Opaque fscale ge lt byte_of_float of_Z.

Section Frames.

Variable pow : float -> float -> float.

(** The instrument part assigns [instrument] and nothing else. *)
Lemma loop_instrument_state (mpr : MPR121) (g : globals) :
  state_of (loop_instrument mpr) g =
  set_instrument (instrument (state_of (loop_instrument mpr) g)) g.
Proof.
  unfold_sketch. destruct g. simpl.
  repeat split_if; reflexivity.
Qed.

(** The volume part leaves the instrument and the pitch channel alone. *)
Lemma loop_volume_frame (mpr : MPR121) (g : globals) :
  let g' := state_of (loop_volume pow mpr) g in
  instrument g' = instrument g /\
  note g' = note g /\ note_old g' = note_old g /\
  level_pitch g' = level_pitch g /\
  min_level_pitch g' = min_level_pitch g /\
  max_level_pitch g' = max_level_pitch g.
Proof.
  unfold_sketch. simpl.
  repeat split_if; simpl; repeat split; reflexivity.
Qed.

(** The pitch part leaves the instrument and the volume channel alone. *)
Lemma loop_pitch_frame (mpr : MPR121) (g : globals) :
  let g' := state_of (loop_pitch pow mpr) g in
  instrument g' = instrument g /\
  volume g' = volume g /\ volume_old g' = volume_old g /\
  level_volume g' = level_volume g /\
  min_level_volume g' = min_level_volume g /\
  max_level_volume g' = max_level_volume g.
Proof.
  unfold_sketch. simpl.
  repeat split_if; simpl; repeat split; reflexivity.
Qed.

Lemma state_of_loop (mpr : MPR121) (g : globals) :
  state_of (loop pow mpr) g =
  state_of (loop_volume pow mpr)
    (state_of (loop_pitch pow mpr) (state_of (loop_instrument mpr) g)).
Proof. unfold loop. rewrite !state_of_bind. reflexivity. Qed.

Lemma state_of_loops_cons (mpr : MPR121) (polls : list MPR121)
  (g : globals) :
  state_of (loops pow (mpr :: polls)) g =
  state_of (loops pow polls) (state_of (loop pow mpr) g).
Proof. simpl. rewrite state_of_bind. reflexivity. Qed.

Lemma state_of_loops_app (before after : list MPR121) (g : globals) :
  state_of (loops pow (before ++ after)) g =
  state_of (loops pow after) (state_of (loops pow before) g).
Proof.
  revert g. induction before as [|mpr before IH]; intros g.
  - reflexivity.
  - rewrite <- app_comm_cons, !state_of_loops_cons. apply IH.
Qed.

(** [setup] assigns no global, so the sketch is in the state its polls
    lead to from the initial values. *)
Lemma state_of_sketch (polls : list MPR121) (g : globals) :
  state_of (sketch pow true polls) g = state_of (loops pow polls) g.
Proof.
  unfold sketch. rewrite state_of_bind.
  replace (fst (fst (setup true g))) with true
    by (unfold setup; unfold_sketch; simpl; repeat split_if; reflexivity).
  replace (state_of (setup true) g) with g; [reflexivity|].
  unfold setup. unfold_sketch. simpl. repeat split_if; reflexivity.
Qed.

End Frames.

(** ** The previous note follows the current note *)

Section NoteOld.

Variable pow : float -> float -> float.

Lemma loop_pitch_note_old (mpr : MPR121) (g : globals) :
  note_old g = note g ->
  note_old (state_of (loop_pitch pow mpr) g) =
  note (state_of (loop_pitch pow mpr) g).
Proof.
  intros H. unfold_sketch. simpl.
  repeat split_if; simpl; try assumption; try reflexivity;
    match goal with
    | E : negb (_ =? _) = false |- _ =>
        apply negb_false_iff, Z.eqb_eq in E; congruence
    end.
Qed.

Lemma loop_note_old (mpr : MPR121) (g : globals) :
  note_old g = note g ->
  note_old (state_of (loop pow mpr) g) = note (state_of (loop pow mpr) g).
Proof.
  intros H. rewrite state_of_loop.
  destruct (loop_volume_frame pow mpr
              (state_of (loop_pitch pow mpr)
                 (state_of (loop_instrument mpr) g)))
    as (_ & Hn & Ho & _).
  rewrite Hn, Ho. apply loop_pitch_note_old.
  rewrite loop_instrument_state. exact H.
Qed.

Lemma loops_note_old (polls : list MPR121) (g : globals) :
  note_old g = note g ->
  note_old (state_of (loops pow polls) g) =
  note (state_of (loops pow polls) g).
Proof.
  revert g. induction polls as [|mpr polls IH]; intros g H.
  - exact H.
  - rewrite state_of_loops_cons. apply IH, loop_note_old, H.
Qed.

(** The MIDI bytes of the instrument part: nothing without a new touch,
    else the program change and two note-offs, for [note_old] and for
    [note]. *)
Lemma loop_instrument_midi (mpr : MPR121) (g : globals) :
  midi (trace_of (loop_instrument mpr) g) =
  if isNewTouch mpr pin_instr_up || isNewTouch mpr pin_instr_down
  then [0xC0; instrument (state_of (loop_instrument mpr) g);
        0x80; note_old g; velocity; 0x80; note g; velocity]
  else [].
Proof.
  unfold_sketch. simpl.
  destruct (isNewTouch mpr pin_instr_up);
    [|destruct (isNewTouch mpr pin_instr_down)]; simpl;
    repeat split_if; reflexivity.
Qed.

End NoteOld.

(** C10.  After [setup] and any number of iterations of [loop], [note_old]
    equals [note]; hence, whatever the next snapshot, an instrument change
    in the next iteration sends the program change followed by two
    note-offs for one and the same note. *)
Theorem note_old_equals_note
  (pow : float -> float -> float) (polls : list MPR121) :
  let g := state_of (sketch pow true polls) initial in
  note_old g = note g /\
  forall mpr : MPR121,
    midi (trace_of (loop_instrument mpr) g) =
    if isNewTouch mpr pin_instr_up || isNewTouch mpr pin_instr_down
    then [0xC0; instrument (state_of (loop_instrument mpr) g);
          0x80; note g; velocity; 0x80; note g; velocity]
    else [].
Proof.
  intros g.
  assert (H : note_old g = note g).
  { subst g. rewrite state_of_sketch. apply loops_note_old. reflexivity. }
  split; [exact H|].
  intros mpr. rewrite loop_instrument_midi, H. reflexivity.
Qed.

(** ** An unchanged note is not retriggered *)

Section SameNote.

Variable pow : float -> float -> float.

(** A reading equal to the previous one: the pitch part does nothing. *)
Lemma loop_pitch_same_reading (mpr : MPR121) (g : globals) :
  getFilteredData mpr pin_pitch = level_pitch g ->
  trace_of (loop_pitch pow mpr) g = [] /\
  note_old (state_of (loop_pitch pow mpr) g) = note_old g.
Proof.
  intros H. unfold_sketch. rewrite H, Z.eqb_refl. simpl. split; reflexivity.
Qed.

(** The range handed to the mapper is the old one widened by the
    reading. *)
Lemma calibrate_pitch_range (g : globals) :
  let g' := state_of calibrate_pitch g in
  min_level_pitch g' = Z.min (min_level_pitch g) (level_pitch g) /\
  max_level_pitch g' = Z.max (max_level_pitch g) (level_pitch g) /\
  level_pitch g' = level_pitch g /\
  note g' = note g /\ note_old g' = note_old g /\
  trace_of calibrate_pitch g = [].
Proof.
  unfold_sketch. repeat split_if; bool_facts; repeat split; lia.
Qed.

Lemma update_note_same_note (g : globals) :
  lt (proximity_fraction pow (min_level_pitch g) (max_level_pitch g)
        (level_pitch g)) point_95 = true ->
  mapped_note pow (min_level_pitch g) (max_level_pitch g) (level_pitch g)
  = note_old g ->
  midi (trace_of (update_note pow) g) = [] /\
  note_old (state_of (update_note pow) g) = note_old g.
Proof.
  unfold proximity_fraction, mapped_note. intros Hlt Hnote.
  apply lt_not_ge in Hlt.
  unfold_sketch. rewrite Hlt. simpl. rewrite Hnote, Z.eqb_refl. simpl.
  split; reflexivity.
Qed.

(** A reading that differs from the previous one: the pitch part stores
    it, widens the range and updates the note. *)
Lemma loop_pitch_new_reading (mpr : MPR121) (g : globals) :
  getFilteredData mpr pin_pitch <> level_pitch g ->
  let g0 := set_level_pitch (getFilteredData mpr pin_pitch)
              (set_level_pitch_old (level_pitch g) g) in
  state_of (loop_pitch pow mpr) g =
    state_of (update_note pow) (state_of calibrate_pitch g0) /\
  trace_of (loop_pitch pow mpr) g =
    trace_of calibrate_pitch g0 ++
    trace_of (update_note pow) (state_of calibrate_pitch g0).
Proof.
  intros Hl g0. apply Z.eqb_neq in Hl.
  unfold loop_pitch, state_of, trace_of, bind, rd, wr, when.
  cbn [fst snd level_pitch level_pitch_old set_level_pitch
         set_level_pitch_old app].
  rewrite Hl. cbn [negb]. fold g0.
  destruct (calibrate_pitch g0) as [[a g1] t1]. cbn [fst snd].
  destruct (update_note pow g1) as [[b g2] t2].
  split; reflexivity.
Qed.

Lemma loop_pitch_same_note (mpr : MPR121) (g : globals) :
  let l := getFilteredData mpr pin_pitch in
  let mn := Z.min (min_level_pitch g) l in
  let mx := Z.max (max_level_pitch g) l in
  l <> level_pitch g ->
  lt (proximity_fraction pow mn mx l) point_95 = true ->
  mapped_note pow mn mx l = note_old g ->
  midi (trace_of (loop_pitch pow mpr) g) = [] /\
  note_old (state_of (loop_pitch pow mpr) g) = note_old g.
Proof.
  intros l mn mx Hl Hlt Hnote.
  destruct (loop_pitch_new_reading mpr g Hl) as [Hs Htr].
  set (g0 := set_level_pitch (getFilteredData mpr pin_pitch)
               (set_level_pitch_old (level_pitch g) g)) in *.
  destruct (calibrate_pitch_range g0) as (Hmn & Hmx & Hlv & _ & Ho & Ht).
  destruct (update_note_same_note (state_of calibrate_pitch g0))
    as [Hm Hold].
  { rewrite Hmn, Hmx, Hlv. exact Hlt. }
  { rewrite Hmn, Hmx, Hlv, Ho. exact Hnote. }
  rewrite Hs, Htr, Ht, Hold, Ho. split; [exact Hm | reflexivity].
Qed.

End SameNote.

Section SameNoteRuns.

Variable pow : float -> float -> float.

Lemma pitch_midi_same_note (n : Z) (polls : list MPR121) :
  forall g : globals,
    note_old g = n ->
    computes_note pow n polls g = true ->
    pitch_midi pow polls g = [].
Proof.
  induction polls as [|mpr polls IH]; intros g Hn Hc; [reflexivity|].
  simpl in Hc. apply andb_true_iff in Hc. destruct Hc as [Hc Hrest].
  set (g1 := state_of (loop_instrument mpr) g).
  assert (Hg1 : g1 = set_instrument (instrument g1) g)
    by apply loop_instrument_state.
  assert (Hp : midi (trace_of (loop_pitch pow mpr) g1) = [] /\
               note_old (state_of (loop_pitch pow mpr) g1) = n).
  { destruct (Z.eqb_spec (getFilteredData mpr pin_pitch) (level_pitch g))
      as [He|Hne].
    - destruct (loop_pitch_same_reading pow mpr g1) as [Ht Ho].
      { rewrite Hg1. exact He. }
      rewrite Ht, Ho, Hg1. split; [reflexivity | exact Hn].
    - apply andb_true_iff in Hc. destruct Hc as [Hlt Hnote].
      apply Z.eqb_eq in Hnote.
      destruct (loop_pitch_same_note pow mpr g1) as [Ht Ho].
      + rewrite Hg1. exact Hne.
      + rewrite Hg1. exact Hlt.
      + rewrite Hg1. simpl. rewrite Hnote, Hn. reflexivity.
      + rewrite Ht, Ho, Hg1. split; [reflexivity | exact Hn]. }
  destruct Hp as [Ht Ho].
  simpl. fold g1. rewrite Ht. simpl.
  apply IH; [|exact Hrest].
  rewrite state_of_loop. fold g1.
  destruct (loop_volume_frame pow mpr (state_of (loop_pitch pow mpr) g1))
    as (_ & _ & Hv & _).
  rewrite Hv. exact Ho.
Qed.

End SameNoteRuns.

(** C9.  When the pitch reading of a poll differs from the previous one,
    the proximity fraction over the widened range is below 0.95 and the note
    computed equals the note sounding ([note_old]), the pitch part of [loop]
    writes no MIDI byte and keeps [note_old]; and over a run in which every
    poll with a changed pitch reading is of that kind, for one note, the
    pitch part writes no MIDI byte at all. *)
Theorem same_note_is_not_retriggered (pow : float -> float -> float) :
  (forall (g : globals) (mpr : MPR121),
     let l := getFilteredData mpr pin_pitch in
     let mn := Z.min (min_level_pitch g) l in
     let mx := Z.max (max_level_pitch g) l in
     l <> level_pitch g ->
     lt (proximity_fraction pow mn mx l) point_95 = true ->
     mapped_note pow mn mx l = note_old g ->
     midi (trace_of (loop_pitch pow mpr) g) = [] /\
     note_old (state_of (loop_pitch pow mpr) g) = note_old g) /\
  (forall (n : Z) (polls : list MPR121) (g : globals),
     note_old g = n ->
     computes_note pow n polls g = true ->
     pitch_midi pow polls g = []).
Proof.
  split.
  - intros g mpr. apply loop_pitch_same_note.
  - intros n polls g. apply pitch_midi_same_note.
Qed.

(** After the readings 400, 1000 and 401 the note 100 sounds; the readings
    400, 400, 402 and 401 that follow all map to 100 again. *)
Lemma same_note_is_not_retriggered_witness :
  let g := state_of (sketch pow_ref true
                       [levels 400 0; levels 1000 0; levels 401 0]) initial in
  note_old g = 100 /\
  (midi (trace_of (loop_pitch pow_ref (levels 400 0)) g) = [] /\
   note_old (state_of (loop_pitch pow_ref (levels 400 0)) g) = note_old g) /\
  pitch_midi pow_ref
    [levels 400 0; levels 400 0; levels 402 0; levels 401 0] g = [].
Proof.
  intros g. split; [vm_compute; reflexivity|]. split.
  - apply (proj1 (same_note_is_not_retriggered pow_ref) g (levels 400 0)).
    + vm_compute. discriminate.
    + vm_compute. reflexivity.
    + vm_compute. reflexivity.
  - apply (proj2 (same_note_is_not_retriggered pow_ref) 100).
    + vm_compute. reflexivity.
    + vm_compute. reflexivity.
Defined.

(** ** Calibration *)

Section Widening.

Variable pow : float -> float -> float.

(** One pass of the pitch part: the range does not shrink, the reading
    becomes the level, and a reading that differs from the previous level
    ends inside the range. *)
Lemma loop_pitch_range (mpr : MPR121) (g : globals) :
  let g' := state_of (loop_pitch pow mpr) g in
  let l := getFilteredData mpr pin_pitch in
  min_level_pitch g' <= min_level_pitch g /\
  max_level_pitch g <= max_level_pitch g' /\
  level_pitch g' = l /\
  (l <> level_pitch g -> min_level_pitch g' <= l <= max_level_pitch g').
Proof.
  unfold_sketch.
  repeat split_if; bool_facts; repeat split; intros; try lia.
Qed.

(** The same for the volume part. *)
Lemma loop_volume_range (mpr : MPR121) (g : globals) :
  let g' := state_of (loop_volume pow mpr) g in
  let l := getFilteredData mpr pin_volume in
  min_level_volume g' <= min_level_volume g /\
  max_level_volume g <= max_level_volume g' /\
  level_volume g' = l /\
  (l <> level_volume g -> min_level_volume g' <= l <= max_level_volume g').
Proof.
  unfold_sketch.
  repeat split_if; bool_facts; repeat split; intros; try lia.
Qed.

End Widening.

(** The argument is the same for the two channels: it only needs what one
    iteration of [loop] does to the level and the range of the channel. *)
Section Channel.

Variable pow : float -> float -> float.
Variables level lo hi : globals -> Z.
Variable reading : MPR121 -> Z.

Hypothesis loop_channel : forall (mpr : MPR121) (g : globals),
  let g' := state_of (loop pow mpr) g in
  lo g' <= lo g /\ hi g <= hi g' /\ level g' = reading mpr /\
  (reading mpr <> level g -> lo g' <= reading mpr <= hi g').

Lemma loops_widen (polls : list MPR121) :
  forall g : globals,
    lo (state_of (loops pow polls) g) <= lo g /\
    hi g <= hi (state_of (loops pow polls) g).
Proof.
  induction polls as [|mpr polls IH]; intros g.
  - simpl. unfold state_of, ret. simpl. lia.
  - rewrite state_of_loops_cons.
    destruct (loop_channel mpr g) as (Hlo & Hhi & _).
    destruct (IH (state_of (loop pow mpr) g)). lia.
Qed.

(** Once the level is inside the range, every later reading is. *)
Lemma loops_calibrated (polls : list MPR121) :
  forall g : globals,
    lo g <= level g <= hi g ->
    forall x : Z, In x (map reading polls) ->
      lo (state_of (loops pow polls) g) <= x <=
      hi (state_of (loops pow polls) g).
Proof.
  induction polls as [|mpr polls IH]; intros g Hcal x Hx; [contradiction|].
  rewrite state_of_loops_cons.
  destruct (loop_channel mpr g) as (Hlo & Hhi & Hlevel & Hnew).
  set (g1 := state_of (loop pow mpr) g) in *.
  assert (Hcal1 : lo g1 <= level g1 <= hi g1).
  { rewrite Hlevel.
    destruct (Z.eq_dec (reading mpr) (level g)) as [E|E]; [|auto].
    rewrite E. lia. }
  destruct Hx as [<-|Hx].
  - destruct (loops_widen polls g1). lia.
  - apply IH; assumption.
Qed.

(** From a level of 0: every reading from the first non-zero one on ends
    inside the range. *)
Lemma loops_from_first_nonzero (polls : list MPR121) :
  forall g : globals,
    level g = 0 ->
    forall x : Z, In x (from_first_nonzero (map reading polls)) ->
      lo (state_of (loops pow polls) g) <= x <=
      hi (state_of (loops pow polls) g).
Proof.
  induction polls as [|mpr polls IH]; intros g H0 x Hx; [contradiction|].
  simpl in Hx.
  destruct (loop_channel mpr g) as (Hlo & Hhi & Hlevel & Hnew).
  destruct (Z.eqb_spec (reading mpr) 0) as [E|E].
  - rewrite state_of_loops_cons. apply IH; [|exact Hx].
    rewrite Hlevel. exact E.
  - rewrite state_of_loops_cons.
    set (g1 := state_of (loop pow mpr) g) in *.
    assert (Hcal1 : lo g1 <= level g1 <= hi g1).
    { rewrite Hlevel. apply Hnew. congruence. }
    destruct Hx as [<-|Hx].
    + destruct (loops_widen polls g1). rewrite Hlevel in Hcal1. lia.
    + apply loops_calibrated; assumption.
Qed.

End Channel.

Section Channels.

Variable pow : float -> float -> float.

Lemma loop_pitch_channel (mpr : MPR121) (g : globals) :
  let g' := state_of (loop pow mpr) g in
  let l := getFilteredData mpr pin_pitch in
  min_level_pitch g' <= min_level_pitch g /\
  max_level_pitch g <= max_level_pitch g' /\
  level_pitch g' = l /\
  (l <> level_pitch g -> min_level_pitch g' <= l <= max_level_pitch g').
Proof.
  intros g' l. subst g'. rewrite state_of_loop.
  set (g1 := state_of (loop_instrument mpr) g).
  destruct (loop_volume_frame pow mpr (state_of (loop_pitch pow mpr) g1))
    as (_ & _ & _ & Hl & Hmn & Hmx).
  rewrite Hl, Hmn, Hmx.
  assert (Hg1 : g1 = set_instrument (instrument g1) g)
    by apply loop_instrument_state.
  destruct (loop_pitch_range pow mpr g1) as (H1 & H2 & H3 & H4).
  rewrite Hg1 in H1, H2, H4. simpl in H1, H2, H4.
  rewrite <- Hg1 in H1, H2, H4.
  repeat split; try assumption; apply H4; assumption.
Qed.

Lemma loop_volume_channel (mpr : MPR121) (g : globals) :
  let g' := state_of (loop pow mpr) g in
  let l := getFilteredData mpr pin_volume in
  min_level_volume g' <= min_level_volume g /\
  max_level_volume g <= max_level_volume g' /\
  level_volume g' = l /\
  (l <> level_volume g -> min_level_volume g' <= l <= max_level_volume g').
Proof.
  intros g' l. subst g'. rewrite state_of_loop.
  set (g1 := state_of (loop_instrument mpr) g).
  set (g2 := state_of (loop_pitch pow mpr) g1).
  assert (Hg1 : g1 = set_instrument (instrument g1) g)
    by apply loop_instrument_state.
  destruct (loop_pitch_frame pow mpr g1) as (_ & _ & _ & Hl & Hmn & Hmx).
  fold g2 in Hl, Hmn, Hmx.
  assert (El : level_volume g2 = level_volume g)
    by (rewrite Hl, Hg1; reflexivity).
  assert (Emn : min_level_volume g2 = min_level_volume g)
    by (rewrite Hmn, Hg1; reflexivity).
  assert (Emx : max_level_volume g2 = max_level_volume g)
    by (rewrite Hmx, Hg1; reflexivity).
  destruct (loop_volume_range pow mpr g2) as (H1 & H2 & H3 & H4).
  rewrite Emn in H1. rewrite Emx in H2. rewrite El in H4.
  repeat split; try assumption; apply H4; assumption.
Qed.

End Channels.

(** C7, as amended.  For each channel, the stored minimum after a run of
    polls is at most, and the stored maximum at least, what it was after
    any earlier part of the run; and after any run, every reading from the
    first one that differs from 0 on lies between the stored minimum and
    the stored maximum. *)
Theorem calibration_range_only_widens (pow : float -> float -> float) :
  (forall before after : list MPR121,
     let g1 := state_of (sketch pow true before) initial in
     let g2 := state_of (sketch pow true (before ++ after)) initial in
     min_level_pitch g2 <= min_level_pitch g1 /\
     max_level_pitch g1 <= max_level_pitch g2 /\
     min_level_volume g2 <= min_level_volume g1 /\
     max_level_volume g1 <= max_level_volume g2) /\
  (forall polls : list MPR121,
     let g := state_of (sketch pow true polls) initial in
     (forall x : Z,
        In x (from_first_nonzero (pitch_readings polls)) ->
        min_level_pitch g <= x <= max_level_pitch g) /\
     (forall x : Z,
        In x (from_first_nonzero (volume_readings polls)) ->
        min_level_volume g <= x <= max_level_volume g)).
Proof.
  split.
  - intros before after g1 g2. subst g1 g2.
    rewrite !state_of_sketch, state_of_loops_app.
    destruct (loops_widen pow level_pitch min_level_pitch max_level_pitch
                (fun mpr => getFilteredData mpr pin_pitch)
                (loop_pitch_channel pow) after
                (state_of (loops pow before) initial)).
    destruct (loops_widen pow level_volume min_level_volume max_level_volume
                (fun mpr => getFilteredData mpr pin_volume)
                (loop_volume_channel pow) after
                (state_of (loops pow before) initial)).
    lia.
  - intros polls g. subst g. rewrite state_of_sketch. split; intros x Hx.
    + apply (loops_from_first_nonzero pow level_pitch min_level_pitch
               max_level_pitch (fun mpr => getFilteredData mpr pin_pitch)
               (loop_pitch_channel pow) polls initial eq_refl x Hx).
    + apply (loops_from_first_nonzero pow level_volume min_level_volume
               max_level_volume (fun mpr => getFilteredData mpr pin_volume)
               (loop_volume_channel pow) polls initial eq_refl x Hx).
Qed.

(** Before the first non-zero reading the sentinels are still in place: the
    reading 0 is not between the stored minimum 1000 and maximum 0. *)
Lemma first_reading_zero_outside_range :
  let polls := [levels 0 0] in
  let g := state_of (sketch pow_ref true polls) initial in
  In 0 (pitch_readings polls) /\
  ~ (min_level_pitch g <= 0 <= max_level_pitch g).
Proof.
  vm_compute. split; [left; reflexivity|].
  intros [H _]. apply H. reflexivity.
Qed.

(** The readings 0, 500, 450 of the pitch pad and 0, 600, 700 of the volume
    pad: 450 and 600 are inside the ranges at the end. *)
Lemma calibration_range_only_widens_witness :
  let polls := [levels 0 0; levels 500 600; levels 450 700] in
  let g := state_of (sketch pow_ref true polls) initial in
  min_level_pitch g <= 450 <= max_level_pitch g /\
  min_level_volume g <= 600 <= max_level_volume g.
Proof.
  intros polls g. split.
  - apply (proj1 (proj2 (calibration_range_only_widens pow_ref) polls)).
    vm_compute. auto.
  - apply (proj2 (proj2 (calibration_range_only_widens pow_ref) polls)).
    vm_compute. auto.
Defined.

(** ** Volume *)

Section Volume.

Variable pow : float -> float -> float.

(** A changed reading that is not a new minimum, a new maximum included:
    the volume is mapped over the widened range, and the control change
    is sent exactly when it differs from the last volume sent. *)
Lemma loop_volume_mapped (mpr : MPR121) (g : globals) :
  let l := getFilteredData mpr pin_volume in
  let v := mapped_volume pow (min_level_volume g)
             (Z.max (max_level_volume g) l) l in
  let g' := state_of (loop_volume pow mpr) g in
  l <> level_volume g ->
  min_level_volume g <= l ->
  volume g' = v /\ volume_old g' = v /\
  midi (trace_of (loop_volume pow mpr) g) =
    if v =? volume_old g then [] else [0xB0; 0x07; v].
Proof.
  intros l v g' Hl Hmin. subst l v g'. unfold mapped_volume.
  apply Z.eqb_neq in Hl. apply Z.ltb_ge in Hmin.
  unfold_sketch. rewrite Hl. simpl.
  destruct (Z.ltb_spec (max_level_volume g)
              (getFilteredData mpr pin_volume)) as [Hmx|Hmx]; simpl;
    rewrite Hmin; simpl.
  - rewrite Z.max_r by lia.
    match goal with
    | |- context [?a =? volume_old g] =>
        destruct (Z.eqb_spec a (volume_old g))
    end; simpl; repeat split; congruence.
  - rewrite Z.max_l by lia.
    match goal with
    | |- context [?a =? volume_old g] =>
        destruct (Z.eqb_spec a (volume_old g))
    end; simpl; repeat split; congruence.
Qed.

End Volume.

(** C2.  A changed volume reading below the stored minimum: the volume part
    stores it as the new minimum and does nothing else; the mapper is not
    called, no MIDI byte is written, and [volume] and [volume_old] stay as
    they are. *)
Theorem new_minimum_skips_volume
  (pow : float -> float -> float) (mpr : MPR121) (g : globals) :
  let l := getFilteredData mpr pin_volume in
  let g' := state_of (loop_volume pow mpr) g in
  l <> level_volume g ->
  l < min_level_volume g ->
  trace_of (loop_volume pow mpr) g = [] /\
  volume g' = volume g /\ volume_old g' = volume_old g /\
  min_level_volume g' = l.
Proof.
  intros l g' Hl Hmin. subst l g'.
  apply Z.eqb_neq in Hl. apply Z.ltb_lt in Hmin.
  unfold_sketch. rewrite Hl. simpl.
  split_if; rewrite Hmin; simpl; repeat split; reflexivity.
Qed.

(** After the volume reading 600, the reading 400: nothing is sent and the
    volume stays 0, the last volume sent, although the reading maps to 127
    over the range 400..600. *)
Lemma new_minimum_skips_volume_witness :
  let g := state_of (sketch pow_ref true [levels 0 600]) initial in
  let g' := state_of (loop_volume pow_ref (levels 0 400)) g in
  (trace_of (loop_volume pow_ref (levels 0 400)) g = [] /\
   volume g' = volume g /\ volume_old g' = volume_old g /\
   min_level_volume g' = 400) /\
  volume_old g = 0 /\
  mapped_volume pow_ref (min_level_volume g') (max_level_volume g') 400 = 127.
Proof.
  intros g g'. split.
  - apply (new_minimum_skips_volume pow_ref (levels 0 400) g).
    + vm_compute. discriminate.
    + vm_compute. reflexivity.
  - vm_compute. split; reflexivity.
Defined.

(** ** The range handed to the mapper *)

(** On a range of a single value, up to the sentinel 1000, the mapper
    divides zero by zero. *)
Lemma single_value_range_checked :
  forallb
    (fun s => is_plus_zero (OriginalRange (of_Z s) (of_Z s))
              && is_nan (normalizedCurVal (of_Z s) (of_Z s) (of_Z s)))
    (map Z.of_nat (seq 1 1000)) = true.
Proof. vm_compute. reflexivity. Qed.

Lemma single_value_range (s : Z) :
  0 < s <= 1000 ->
  OriginalRange (of_Z s) (of_Z s) = zero /\
  normalizedCurVal (of_Z s) (of_Z s) (of_Z s) = nan.
Proof.
  intros Hs.
  assert (Hin : In s (map Z.of_nat (seq 1 1000))).
  { rewrite <- (Z2Nat.id s) by lia. apply in_map, in_seq. lia. }
  pose proof (proj1 (forallb_forall _ _) single_value_range_checked s Hin)
    as H.
  apply andb_true_iff in H. destruct H as [Hz Hn].
  split.
  - destruct (OriginalRange (of_Z s) (of_Z s)) as [[|]| | |];
      try discriminate. reflexivity.
  - destruct (normalizedCurVal (of_Z s) (of_Z s) (of_Z s));
      try discriminate. reflexivity.
Qed.

Section FirstReading.

Variable pow : float -> float -> float.

Lemma trace_of_sketch (polls : list MPR121) (g : globals) :
  trace_of (sketch pow true polls) g =
  trace_of (setup true) g ++ trace_of (loops pow polls) g.
Proof.
  unfold sketch. rewrite trace_of_bind.
  replace (fst (fst (setup true g))) with true
    by (unfold setup; unfold_sketch; repeat split_if; reflexivity).
  replace (state_of (setup true) g) with g; [reflexivity|].
  unfold setup. unfold_sketch. repeat split_if; reflexivity.
Qed.

Lemma trace_of_loops_cons (mpr : MPR121) (polls : list MPR121)
  (g : globals) :
  trace_of (loops pow (mpr :: polls)) g =
  trace_of (loop pow mpr) g ++
  trace_of (loops pow polls) (state_of (loop pow mpr) g).
Proof. simpl. rewrite trace_of_bind. reflexivity. Qed.

(** The first iteration of [loop] on a pitch reading between the
    sentinels calls the mapper with that reading as both ends of the
    range. *)
Lemma first_loop_single_value (s v : Z) :
  0 < s <= 1000 ->
  In (s, s) (fscale_ranges (trace_of (loop pow (levels s v)) initial)).
Proof.
  intros Hs.
  assert (E0 : (s =? 0) = false) by (apply Z.eqb_neq; lia).
  assert (E1 : (0 <? s) = true) by (apply Z.ltb_lt; lia).
  unfold_sketch. rewrite E0. simpl. rewrite E1. simpl.
  destruct (Z.ltb_spec s 1000) as [Hlt|Hge]; simpl.
  - repeat split_if; left; reflexivity.
  - assert (s = 1000) by lia. subst s.
    repeat split_if; left; reflexivity.
Qed.

End FirstReading.

(** C3.  From power-up, a first pitch reading [s] with 0 < s <= 1000 makes
    the first iteration of [loop] call the mapper with the calibration
    range [s, s]; for that range [OriginalRange] is zero and
    [normalizedCurVal], zero divided by zero, is a NaN. *)
Theorem first_reading_gives_zero_span
  (pow : float -> float -> float) (s v : Z) :
  0 < s <= 1000 ->
  In (s, s)
    (fscale_ranges (trace_of (sketch pow true [levels s v]) initial)) /\
  OriginalRange (of_Z s) (of_Z s) = zero /\
  normalizedCurVal (of_Z s) (of_Z s) (of_Z s) = nan.
Proof.
  intros Hs. split; [|apply single_value_range, Hs].
  rewrite trace_of_sketch, trace_of_loops_cons, !fscale_ranges_app.
  apply in_or_app. right. apply in_or_app. left.
  apply first_loop_single_value, Hs.
Qed.

(** The first pitch reading 500: the mapper is called twice, with the range
    500..500 each time, and no other range. *)
Lemma first_reading_gives_zero_span_witness :
  (In (500, 500)
     (fscale_ranges
        (trace_of (sketch pow_ref true [levels 500 0]) initial)) /\
   OriginalRange (of_Z 500) (of_Z 500) = zero /\
   normalizedCurVal (of_Z 500) (of_Z 500) (of_Z 500) = nan) /\
  fscale_ranges (trace_of (sketch pow_ref true [levels 500 0]) initial)
  = [(500, 500); (500, 500)].
Proof.
  split.
  - apply (first_reading_gives_zero_span pow_ref 500 0). lia.
  - vm_compute. reflexivity.
Defined.

(** * Further properties of the sketch *)

(** ** Note messages *)

(** X1.  For a MIDI channel 0..15, [noteOn] writes the status byte 0x90 +
    channel and [noteOff] the status byte 0x80 + channel, each followed by
    the note and the velocity: three bytes, for any note and velocity. *)
Theorem note_messages_have_three_bytes
  (channel note vel : Z) (g : globals) :
  0 <= channel <= 15 ->
  midi (trace_of (noteOn channel note vel) g) = [0x90 + channel; note; vel] /\
  midi (trace_of (noteOff channel note vel) g) = [0x80 + channel; note; vel].
Proof.
  intros H.
  assert (Hc : channel = 0 \/ channel = 1 \/ channel = 2 \/ channel = 3 \/
               channel = 4 \/ channel = 5 \/ channel = 6 \/ channel = 7 \/
               channel = 8 \/ channel = 9 \/ channel = 10 \/ channel = 11 \/
               channel = 12 \/ channel = 13 \/ channel = 14 \/ channel = 15)
    by lia.
  repeat (destruct Hc as [->|Hc]); try subst channel; split; reflexivity.
Qed.

Lemma note_messages_have_three_bytes_witness :
  midi (trace_of (noteOn 9 60 100) initial) = [0x99; 60; 100] /\
  midi (trace_of (noteOff 9 60 100) initial) = [0x89; 60; 100].
Proof.
  apply (note_messages_have_three_bytes 9 60 100 initial). lia.
Defined.

(** ** Stepping through the instruments *)

Section InstrumentSteps.

Variable pow : float -> float -> float.

(** Only the instrument part of [loop] assigns [instrument]. *)
Lemma instrument_after_loop (mpr : MPR121) (g : globals) :
  instrument (state_of (loop pow mpr) g) =
  instrument (state_of (loop_instrument mpr) g).
Proof.
  rewrite state_of_loop.
  destruct (loop_volume_frame pow mpr
              (state_of (loop_pitch pow mpr)
                 (state_of (loop_instrument mpr) g))) as (Hv & _).
  destruct (loop_pitch_frame pow mpr (state_of (loop_instrument mpr) g))
    as (Hp & _).
  rewrite Hv, Hp. reflexivity.
Qed.

(** One iteration with the "up" pad newly touched, whatever the "down" pad
    says. *)
Lemma instrument_after_up (down : bool) (p v : Z) (g : globals) :
  0 <= instrument g <= 127 ->
  instrument (state_of (loop pow (snapshot true down p v)) g) =
  (instrument g + 1) mod 128.
Proof.
  intros H. rewrite instrument_after_loop.
  unfold_sketch. unfold byte_of_int, max_instrument, min_instrument.
  rewrite (Z.mod_small (instrument g + 1) 256) by lia.
  destruct (Z.ltb_spec 127 (instrument g + 1)); simpl.
  - replace (instrument g + 1) with 128 by lia. reflexivity.
  - rewrite Z.mod_small by lia. reflexivity.
Qed.

(** One iteration with only the "down" pad newly touched. *)
Lemma instrument_after_down (p v : Z) (g : globals) :
  is_byte (instrument g) ->
  instrument (state_of (loop pow (snapshot false true p v)) g) =
  (instrument g - 1) mod 256.
Proof.
  unfold is_byte. intros H. rewrite instrument_after_loop.
  unfold_sketch. unfold byte_of_int, max_instrument, min_instrument.
  destruct (Z.ltb_spec ((instrument g - 1) mod 256) 0) as [Hlt|Hge]; simpl.
  - pose proof (Z.mod_pos_bound (instrument g - 1) 256). lia.
  - reflexivity.
Qed.

Lemma instrument_after_ups (down : bool) (p v : Z) (k : nat) :
  forall g : globals,
    0 <= instrument g <= 127 ->
    instrument
      (state_of (loops pow (repeat (snapshot true down p v) k)) g) =
    (instrument g + Z.of_nat k) mod 128.
Proof.
  induction k as [|k IH]; intros g H.
  - simpl. unfold state_of, ret. simpl.
    rewrite Z.add_0_r, Z.mod_small by lia. reflexivity.
  - change (repeat (snapshot true down p v) (S k))
      with (snapshot true down p v :: repeat (snapshot true down p v) k).
    rewrite state_of_loops_cons, IH.
    + rewrite instrument_after_up by exact H.
      rewrite Zplus_mod_idemp_l. f_equal. lia.
    + rewrite instrument_after_up by exact H.
      pose proof (Z.mod_pos_bound (instrument g + 1) 128). lia.
Qed.

End InstrumentSteps.

(** X2.  Going up is cyclic over the 128 programs: from an index in 0..127,
    [k] iterations with the "up" pad newly touched lead to the index plus
    [k] modulo 128, whether or not the "down" pad is newly touched as well;
    so 128 of them lead back to the start. *)
Theorem up_cycles_through_128_programs
  (pow : float -> float -> float) (down : bool) (p v : Z) (k : nat)
  (g : globals) :
  0 <= instrument g <= 127 ->
  instrument (state_of (loops pow (repeat (snapshot true down p v) k)) g) =
    (instrument g + Z.of_nat k) mod 128 /\
  instrument (state_of (loops pow (repeat (snapshot true down p v) 128)) g) =
    instrument g.
Proof.
  intros H. split.
  - apply instrument_after_ups, H.
  - rewrite instrument_after_ups by exact H.
    change (Z.of_nat 128) with (1 * 128).
    rewrite Z.mod_add, Z.mod_small by lia. reflexivity.
Qed.

Lemma up_cycles_through_128_programs_witness :
  instrument
    (state_of (loops pow_ref (repeat (snapshot true true 0 0) 50)) initial) =
    (instrument initial + Z.of_nat 50) mod 128 /\
  instrument
    (state_of (loops pow_ref (repeat (snapshot true true 0 0) 128)) initial) =
    instrument initial.
Proof.
  apply (up_cycles_through_128_programs pow_ref true 0 0 50 initial).
  vm_compute. split; discriminate.
Defined.

(** X3.  Going down is cyclic over the 256 values of a byte, not over the
    128 programs: from any byte, [k] iterations with only the "down" pad
    newly touched lead to the index minus [k] modulo 256. *)
Theorem down_cycles_through_256_values
  (pow : float -> float -> float) (p v : Z) (k : nat) (g : globals) :
  is_byte (instrument g) ->
  instrument (state_of (loops pow (repeat (snapshot false true p v) k)) g) =
  (instrument g - Z.of_nat k) mod 256.
Proof.
  revert g. induction k as [|k IH]; intros g H.
  - simpl. unfold state_of, ret. simpl. unfold is_byte in H.
    rewrite Z.sub_0_r, Z.mod_small by lia. reflexivity.
  - change (repeat (snapshot false true p v) (S k))
      with (snapshot false true p v :: repeat (snapshot false true p v) k).
    rewrite state_of_loops_cons, IH.
    + rewrite instrument_after_down by exact H.
      rewrite Zminus_mod_idemp_l. f_equal. lia.
    + rewrite instrument_after_down by exact H.
      unfold is_byte. apply Z.mod_pos_bound. lia.
Qed.

Lemma down_cycles_through_256_values_witness :
  instrument
    (state_of (loops pow_ref (repeat (snapshot false true 0 0) 100)) initial) =
  (instrument initial - Z.of_nat 100) mod 256.
Proof.
  apply (down_cycles_through_256_values pow_ref 0 0 100 initial).
  vm_compute. split; [discriminate | reflexivity].
Defined.

(** ** The other two branches of the pitch part *)

Section PitchBranches.

Variable pow : float -> float -> float.

Lemma update_note_off (g : globals) :
  ge (proximity_fraction pow (min_level_pitch g) (max_level_pitch g)
        (level_pitch g)) point_95 = true ->
  midi (trace_of (update_note pow) g) =
    [0x80; note_old g; velocity; 0x80; note g; velocity] /\
  note (state_of (update_note pow) g) = note g /\
  note_old (state_of (update_note pow) g) = note g.
Proof.
  unfold proximity_fraction. intros Hge.
  unfold_sketch. rewrite Hge. simpl. repeat split; reflexivity.
Qed.

Lemma update_note_change (g : globals) :
  ge (proximity_fraction pow (min_level_pitch g) (max_level_pitch g)
        (level_pitch g)) point_95 = false ->
  mapped_note pow (min_level_pitch g) (max_level_pitch g) (level_pitch g)
  <> note_old g ->
  let n := mapped_note pow (min_level_pitch g) (max_level_pitch g)
             (level_pitch g) in
  midi (trace_of (update_note pow) g) =
    [0x90; n; velocity; 0x80; note_old g; velocity] /\
  note (state_of (update_note pow) g) = n /\
  note_old (state_of (update_note pow) g) = n.
Proof.
  intros Hge Hne n. subst n. revert Hge Hne.
  unfold proximity_fraction, mapped_note. intros Hge Hne.
  apply Z.eqb_neq in Hne.
  unfold_sketch. rewrite Hge. simpl. rewrite Hne. simpl.
  repeat split; reflexivity.
Qed.

(** The state the note update of a changed reading starts from. *)
Lemma loop_pitch_calibrated (mpr : MPR121) (g : globals) :
  let l := getFilteredData mpr pin_pitch in
  let g1 := state_of calibrate_pitch
              (set_level_pitch l (set_level_pitch_old (level_pitch g) g)) in
  min_level_pitch g1 = Z.min (min_level_pitch g) l /\
  max_level_pitch g1 = Z.max (max_level_pitch g) l /\
  level_pitch g1 = l /\ note g1 = note g /\ note_old g1 = note_old g /\
  trace_of calibrate_pitch
    (set_level_pitch l (set_level_pitch_old (level_pitch g) g)) = [].
Proof.
  intros l g1. subst g1.
  destruct (calibrate_pitch_range
              (set_level_pitch l (set_level_pitch_old (level_pitch g) g)))
    as (H1 & H2 & H3 & H4 & H5 & H6).
  repeat split; assumption.
Qed.

(** A changed reading near the baseline, through the whole pitch part. *)
Lemma loop_pitch_off (mpr : MPR121) (g : globals) :
  let l := getFilteredData mpr pin_pitch in
  let mn := Z.min (min_level_pitch g) l in
  let mx := Z.max (max_level_pitch g) l in
  let g' := state_of (loop_pitch pow mpr) g in
  l <> level_pitch g ->
  ge (proximity_fraction pow mn mx l) point_95 = true ->
  midi (trace_of (loop_pitch pow mpr) g) =
    [0x80; note_old g; velocity; 0x80; note g; velocity] /\
  note g' = note g /\ note_old g' = note g.
Proof.
  intros l mn mx g' Hl Hge. subst g'.
  destruct (loop_pitch_new_reading pow mpr g Hl) as [Hs Htr].
  destruct (loop_pitch_calibrated mpr g) as (Hmn & Hmx & Hlv & Hn & Ho & Ht).
  fold l in Hmn, Hmx, Hlv, Hn, Ho, Ht, Hs, Htr.
  set (g1 := state_of calibrate_pitch
               (set_level_pitch l (set_level_pitch_old (level_pitch g) g)))
    in *.
  destruct (update_note_off g1) as (Hm & Hn' & Ho').
  { rewrite Hmn, Hmx, Hlv. exact Hge. }
  rewrite Hs, Htr, Ht. cbn [app].
  rewrite Hn', Ho', Hm, Hn, Ho. repeat split; reflexivity.
Qed.

End PitchBranches.

(** X4.  A changed pitch reading whose proximity fraction over the widened
    range is at least 0.95: the pitch part sends a note-off for [note_old]
    and a note-off for [note], keeps [note] and sets [note_old] to it. *)
Theorem near_baseline_turns_notes_off
  (pow : float -> float -> float) (mpr : MPR121) (g : globals) :
  let l := getFilteredData mpr pin_pitch in
  let mn := Z.min (min_level_pitch g) l in
  let mx := Z.max (max_level_pitch g) l in
  let g' := state_of (loop_pitch pow mpr) g in
  l <> level_pitch g ->
  ge (proximity_fraction pow mn mx l) point_95 = true ->
  midi (trace_of (loop_pitch pow mpr) g) =
    [0x80; note_old g; velocity; 0x80; note g; velocity] /\
  note g' = note g /\ note_old g' = note g.
Proof. apply loop_pitch_off. Qed.

(** X5.  A changed pitch reading whose proximity fraction is not at least
    0.95 and whose note [n] differs from [note_old]: the pitch part sends
    the note-on for [n] first and the note-off for [note_old] after it, and
    leaves [n] in [note] and [note_old]. *)
Theorem new_note_is_switched_on_before_old_is_off
  (pow : float -> float -> float) (mpr : MPR121) (g : globals) :
  let l := getFilteredData mpr pin_pitch in
  let mn := Z.min (min_level_pitch g) l in
  let mx := Z.max (max_level_pitch g) l in
  let n := mapped_note pow mn mx l in
  let g' := state_of (loop_pitch pow mpr) g in
  l <> level_pitch g ->
  ge (proximity_fraction pow mn mx l) point_95 = false ->
  n <> note_old g ->
  midi (trace_of (loop_pitch pow mpr) g) =
    [0x90; n; velocity; 0x80; note_old g; velocity] /\
  note g' = n /\ note_old g' = n.
Proof.
  intros l mn mx n g' Hl Hge Hne. subst g'.
  destruct (loop_pitch_new_reading pow mpr g Hl) as [Hs Htr].
  destruct (loop_pitch_calibrated mpr g) as (Hmn & Hmx & Hlv & Hn & Ho & Ht).
  fold l in Hmn, Hmx, Hlv, Hn, Ho, Ht, Hs, Htr.
  set (g1 := state_of calibrate_pitch
               (set_level_pitch l (set_level_pitch_old (level_pitch g) g)))
    in *.
  destruct (update_note_change pow g1) as (Hm & Hn' & Ho').
  { rewrite Hmn, Hmx, Hlv. exact Hge. }
  { rewrite Hmn, Hmx, Hlv, Ho. exact Hne. }
  rewrite Hmn, Hmx, Hlv, Ho in Hm. rewrite Hmn, Hmx, Hlv in Hn', Ho'.
  rewrite Hs, Htr, Ht. cbn [app].
  rewrite Hn', Ho', Hm. repeat split; reflexivity.
Qed.

(** After the readings 400, 1000, 401 the note 100 sounds; the reading 999
    is within 5 % of the baseline. *)
Lemma near_baseline_turns_notes_off_witness :
  let g := state_of (sketch pow_ref true
                       [levels 400 0; levels 1000 0; levels 401 0]) initial in
  let g' := state_of (loop_pitch pow_ref (levels 999 0)) g in
  midi (trace_of (loop_pitch pow_ref (levels 999 0)) g) =
    [0x80; note_old g; velocity; 0x80; note g; velocity] /\
  note g' = note g /\ note_old g' = note g.
Proof.
  intros g g'.
  apply (near_baseline_turns_notes_off pow_ref (levels 999 0) g).
  - vm_compute. discriminate.
  - vm_compute. reflexivity.
Defined.

(** After the readings 400 and 1000 no note sounds and [note_old] is 0; the
    reading 401 maps to the note 100. *)
Lemma new_note_is_switched_on_before_old_is_off_witness :
  let g := state_of (sketch pow_ref true [levels 400 0; levels 1000 0])
             initial in
  let g' := state_of (loop_pitch pow_ref (levels 401 0)) g in
  midi (trace_of (loop_pitch pow_ref (levels 401 0)) g) =
    [0x90; 100; velocity; 0x80; 0; velocity] /\
  note g' = 100 /\ note_old g' = 100.
Proof.
  intros g g'.
  apply (new_note_is_switched_on_before_old_is_off pow_ref (levels 401 0) g).
  - vm_compute. discriminate.
  - vm_compute. reflexivity.
  - vm_compute. discriminate.
Defined.

Section Silenced.

Variable pow : float -> float -> float.

(** The note update leaves the level and the range of the pitch channel as
    the calibration left them. *)
Lemma update_note_keeps_range (g : globals) :
  let g' := state_of (update_note pow) g in
  min_level_pitch g' = min_level_pitch g /\
  max_level_pitch g' = max_level_pitch g /\
  level_pitch g' = level_pitch g.
Proof.
  unfold_sketch. repeat split_if; repeat split; reflexivity.
Qed.

(** The level and the range after the pitch part has taken a changed
    reading. *)
Lemma loop_pitch_new_range (mpr : MPR121) (g : globals) :
  let l := getFilteredData mpr pin_pitch in
  let g' := state_of (loop_pitch pow mpr) g in
  l <> level_pitch g ->
  min_level_pitch g' = Z.min (min_level_pitch g) l /\
  max_level_pitch g' = Z.max (max_level_pitch g) l /\
  level_pitch g' = l.
Proof.
  intros l g' Hl. subst g'.
  destruct (loop_pitch_new_reading pow mpr g Hl) as [Hs _].
  destruct (loop_pitch_calibrated mpr g) as (Hmn & Hmx & Hlv & _).
  fold l in Hmn, Hmx, Hlv, Hs.
  set (g1 := state_of calibrate_pitch
               (set_level_pitch l (set_level_pitch_old (level_pitch g) g)))
    in *.
  destruct (update_note_keeps_range g1) as (H1 & H2 & H3).
  rewrite Hs, H1, H2, H3, Hmn, Hmx, Hlv. repeat split; reflexivity.
Qed.

End Silenced.

(** X6.  A note that the near-baseline branch has turned off is not turned
    on again by the next changed reading when that reading maps to the same
    note: the pitch part sends nothing, because [note_old] still holds the
    note. *)
Theorem silenced_note_is_not_switched_on_again
  (pow : float -> float -> float) (mpr1 mpr2 : MPR121) (g : globals) :
  let l1 := getFilteredData mpr1 pin_pitch in
  let mn1 := Z.min (min_level_pitch g) l1 in
  let mx1 := Z.max (max_level_pitch g) l1 in
  let l2 := getFilteredData mpr2 pin_pitch in
  let mn2 := Z.min mn1 l2 in
  let mx2 := Z.max mx1 l2 in
  let g1 := state_of (loop_pitch pow mpr1) g in
  l1 <> level_pitch g ->
  ge (proximity_fraction pow mn1 mx1 l1) point_95 = true ->
  l2 <> l1 ->
  lt (proximity_fraction pow mn2 mx2 l2) point_95 = true ->
  mapped_note pow mn2 mx2 l2 = note g ->
  midi (trace_of (loop_pitch pow mpr1) g) =
    [0x80; note_old g; velocity; 0x80; note g; velocity] /\
  midi (trace_of (loop_pitch pow mpr2) g1) = [].
Proof.
  intros l1 mn1 mx1 l2 mn2 mx2 g1 Hl1 Hge Hl2 Hlt Hnote.
  destruct (loop_pitch_off pow mpr1 g Hl1 Hge) as (Hm & _ & Ho).
  destruct (loop_pitch_new_range pow mpr1 g Hl1) as (Hmn & Hmx & Hlv).
  fold g1 in Ho, Hmn, Hmx, Hlv.
  split; [exact Hm|].
  apply (loop_pitch_same_note pow mpr2 g1).
  - rewrite Hlv. exact Hl2.
  - rewrite Hmn, Hmx. exact Hlt.
  - rewrite Hmn, Hmx, Ho. exact Hnote.
Qed.

(** The note 100 sounds; the reading 999 turns it off; the reading 401 maps
    to 100 again and nothing is sent. *)
Lemma silenced_note_is_not_switched_on_again_witness :
  let g := state_of (sketch pow_ref true
                       [levels 400 0; levels 1000 0; levels 401 0]) initial in
  let g1 := state_of (loop_pitch pow_ref (levels 999 0)) g in
  midi (trace_of (loop_pitch pow_ref (levels 999 0)) g) =
    [0x80; note_old g; velocity; 0x80; note g; velocity] /\
  midi (trace_of (loop_pitch pow_ref (levels 401 0)) g1) = [].
Proof.
  intros g g1.
  apply (silenced_note_is_not_switched_on_again pow_ref
           (levels 999 0) (levels 401 0) g).
  - vm_compute. discriminate.
  - vm_compute. reflexivity.
  - vm_compute. discriminate.
  - vm_compute. reflexivity.
  - vm_compute. reflexivity.
Defined.

(** ** Volume *)

Section VolumeOld.

Variable pow : float -> float -> float.

(** What the volume part sends, from a state in which [volume_old] equals
    [volume]. *)
Lemma loop_volume_sends (mpr : MPR121) (g : globals) :
  let g' := state_of (loop_volume pow mpr) g in
  volume_old g = volume g ->
  midi (trace_of (loop_volume pow mpr) g) =
    (if volume g' =? volume g then [] else [0xB0; 0x07; volume g']) /\
  volume_old g' = volume g'.
Proof.
  intros g' H. subst g'. unfold_sketch.
  repeat split_if; bool_facts; simpl; try congruence;
    split; try reflexivity; congruence.
Qed.

Lemma loop_volume_old (mpr : MPR121) (g : globals) :
  volume_old g = volume g ->
  volume_old (state_of (loop pow mpr) g) = volume (state_of (loop pow mpr) g).
Proof.
  intros H. rewrite state_of_loop.
  apply loop_volume_sends.
  destruct (loop_pitch_frame pow mpr (state_of (loop_instrument mpr) g))
    as (_ & Hv & Ho & _).
  rewrite Hv, Ho, loop_instrument_state. exact H.
Qed.

Lemma loops_volume_old (polls : list MPR121) :
  forall g : globals,
    volume_old g = volume g ->
    volume_old (state_of (loops pow polls) g) =
    volume (state_of (loops pow polls) g).
Proof.
  induction polls as [|mpr polls IH]; intros g H.
  - exact H.
  - rewrite state_of_loops_cons. apply IH, loop_volume_old, H.
Qed.

End VolumeOld.

(** X7.  After [setup] and any number of iterations, [volume_old] equals
    [volume]; and in the next iteration, whatever the snapshot, the volume
    part sends a control change exactly when the iteration changes [volume],
    and the control change carries the new volume. *)
Theorem volume_change_is_announced
  (pow : float -> float -> float) (polls : list MPR121) (mpr : MPR121) :
  let g := state_of (sketch pow true polls) initial in
  let g0 := state_of (loop_pitch pow mpr) (state_of (loop_instrument mpr) g) in
  let g' := state_of (loop pow mpr) g in
  volume_old g = volume g /\
  midi (trace_of (loop_volume pow mpr) g0) =
    (if volume g' =? volume g then [] else [0xB0; 0x07; volume g']).
Proof.
  intros g g0 g'.
  assert (H : volume_old g = volume g).
  { subst g. rewrite state_of_sketch. apply loops_volume_old. reflexivity. }
  split; [exact H|].
  destruct (loop_pitch_frame pow mpr (state_of (loop_instrument mpr) g))
    as (_ & Hv & Ho & _).
  fold g0 in Hv, Ho.
  rewrite loop_instrument_state in Hv, Ho. simpl in Hv, Ho.
  destruct (loop_volume_sends pow mpr g0) as [Hm _]; [congruence|].
  subst g'. rewrite state_of_loop. fold g0. rewrite Hm, Hv. reflexivity.
Qed.

(** X8.  A changed volume reading that is not below the stored minimum (it
    may be a new maximum): the volume is mapped over the range widened by
    the reading and stored in [volume] and [volume_old], and the control
    change 7 with that volume is sent exactly when it differs from the last
    volume sent. *)
Theorem changed_volume_is_mapped_and_sent
  (pow : float -> float -> float) (mpr : MPR121) (g : globals) :
  let l := getFilteredData mpr pin_volume in
  let v := mapped_volume pow (min_level_volume g)
             (Z.max (max_level_volume g) l) l in
  let g' := state_of (loop_volume pow mpr) g in
  l <> level_volume g ->
  min_level_volume g <= l ->
  volume g' = v /\ volume_old g' = v /\
  midi (trace_of (loop_volume pow mpr) g) =
    (if v =? volume_old g then [] else [0xB0; 0x07; v]).
Proof. apply loop_volume_mapped. Qed.

(** After the volume readings 600 and 400, the reading 500 is neither a new
    minimum nor a new maximum and maps to 126. *)
Lemma changed_volume_is_mapped_and_sent_witness :
  let g := state_of (sketch pow_ref true [levels 0 600; levels 0 400])
             initial in
  let v := mapped_volume pow_ref (min_level_volume g)
             (Z.max (max_level_volume g) 500) 500 in
  let g' := state_of (loop_volume pow_ref (levels 0 500)) g in
  (v = 126 /\ volume_old g = 0) /\
  volume g' = v /\ volume_old g' = v /\
  midi (trace_of (loop_volume pow_ref (levels 0 500)) g) =
    (if v =? volume_old g then [] else [0xB0; 0x07; v]).
Proof.
  intros g v g'. split.
  - vm_compute. split; reflexivity.
  - apply (changed_volume_is_mapped_and_sent pow_ref (levels 0 500) g).
    + vm_compute. discriminate.
    + vm_compute. discriminate.
Defined.

(** ** Polls that change nothing *)

Section Idle.

Variable pow : float -> float -> float.

(** No newly touched pad and both readings equal to the stored levels: the
    iteration does nothing to the outside and only copies the levels into
    [level_pitch_old] and [level_volume_old]. *)
Lemma loop_idle (mpr : MPR121) (g : globals) :
  isNewTouch mpr pin_instr_up = false ->
  isNewTouch mpr pin_instr_down = false ->
  getFilteredData mpr pin_pitch = level_pitch g ->
  getFilteredData mpr pin_volume = level_volume g ->
  trace_of (loop pow mpr) g = [] /\
  state_of (loop pow mpr) g =
    set_level_volume_old (level_volume g)
      (set_level_pitch_old (level_pitch g) g).
Proof.
  intros Hu Hd Hp Hv. unfold_sketch.
  rewrite Hu, Hd, Hp, Hv. simpl.
  rewrite Z.eqb_refl. simpl. rewrite Z.eqb_refl. simpl.
  split; reflexivity.
Qed.

End Idle.

(** X9.  Holding still costs nothing: an iteration whose snapshot repeats
    the two readings of the iteration before it, with no pad newly touched,
    writes no MIDI byte, calls no mapper, leaves the LED alone and changes
    no global except the two stored previous levels. *)
Theorem repeated_readings_are_silent
  (pow : float -> float -> float) (mpr1 mpr2 : MPR121) (g : globals) :
  let g1 := state_of (loop pow mpr1) g in
  isNewTouch mpr2 pin_instr_up = false ->
  isNewTouch mpr2 pin_instr_down = false ->
  getFilteredData mpr2 pin_pitch = getFilteredData mpr1 pin_pitch ->
  getFilteredData mpr2 pin_volume = getFilteredData mpr1 pin_volume ->
  trace_of (loop pow mpr2) g1 = [] /\
  state_of (loop pow mpr2) g1 =
    set_level_volume_old (level_volume g1)
      (set_level_pitch_old (level_pitch g1) g1).
Proof.
  intros g1 Hu Hd Hp Hv.
  destruct (loop_pitch_channel pow mpr1 g) as (_ & _ & Hlp & _).
  destruct (loop_volume_channel pow mpr1 g) as (_ & _ & Hlv & _).
  apply loop_idle; try assumption.
  - rewrite Hp. symmetry. exact Hlp.
  - rewrite Hv. symmetry. exact Hlv.
Qed.

Lemma repeated_readings_are_silent_witness :
  let g1 := state_of (loop pow_ref (snapshot true false 500 600)) initial in
  trace_of (loop pow_ref (levels 500 600)) g1 = [] /\
  state_of (loop pow_ref (levels 500 600)) g1 =
    set_level_volume_old (level_volume g1)
      (set_level_pitch_old (level_pitch g1) g1).
Proof.
  intros g1.
  apply (repeated_readings_are_silent pow_ref (snapshot true false 500 600)
           (levels 500 600) initial); reflexivity.
Defined.

(** ** How much one iteration writes *)

Section Traffic.

Variable pow : float -> float -> float.

Lemma trace_of_loop (mpr : MPR121) (g : globals) :
  trace_of (loop pow mpr) g =
  trace_of (loop_instrument mpr) g ++
  trace_of (loop_pitch pow mpr) (state_of (loop_instrument mpr) g) ++
  trace_of (loop_volume pow mpr)
    (state_of (loop_pitch pow mpr) (state_of (loop_instrument mpr) g)).
Proof. unfold loop. rewrite !trace_of_bind. reflexivity. Qed.

Lemma loop_instrument_length (mpr : MPR121) (g : globals) :
  (length (midi (trace_of (loop_instrument mpr) g)) <= 8)%nat.
Proof. rewrite loop_instrument_midi. split_if; simpl; lia. Qed.

Lemma loop_pitch_length (mpr : MPR121) (g : globals) :
  (length (midi (trace_of (loop_pitch pow mpr) g)) <= 6)%nat.
Proof. unfold_sketch. repeat split_if; simpl; lia. Qed.

Lemma loop_volume_length (mpr : MPR121) (g : globals) :
  (length (midi (trace_of (loop_volume pow mpr) g)) <= 3)%nat.
Proof. unfold_sketch. repeat split_if; simpl; lia. Qed.

End Traffic.

(** X10.  One iteration of [loop] writes at most 17 bytes to the MIDI port:
    at most 8 for an instrument change, 6 for the pitch and 3 for the
    volume. *)
Theorem loop_writes_at_most_17_bytes
  (pow : float -> float -> float) (mpr : MPR121) (g : globals) :
  (length (midi (trace_of (loop pow mpr) g)) <= 17)%nat.
Proof.
  rewrite trace_of_loop, !midi_app, !length_app.
  pose proof (loop_instrument_length mpr g).
  pose proof (loop_pitch_length pow mpr (state_of (loop_instrument mpr) g)).
  pose proof (loop_volume_length pow mpr
                (state_of (loop_pitch pow mpr)
                   (state_of (loop_instrument mpr) g))).
  lia.
Qed.

(** The bound is reached: an instrument change, a new note and a new volume
    in one iteration. *)
Example loop_can_write_17_bytes :
  let g := state_of (sketch pow_ref true [levels 400 400; levels 1000 1000])
             initial in
  midi (trace_of (loop pow_ref (snapshot true false 401 500)) g) =
  [0xC0; 80; 0x80; 0; 60; 0x80; 0; 60;
   0x90; 100; 60; 0x80; 0; 60;
   0xB0; 0x07; 127].
Proof. vm_compute. reflexivity. Qed.

(** ** The LED *)

Lemma led_after_app (led : bool) (t1 t2 : list event) :
  led_after led (t1 ++ t2) = led_after (led_after led t1) t2.
Proof.
  revert led. induction t1 as [|e t1 IH]; intros led; [reflexivity|].
  destruct e; simpl; apply IH.
Qed.

Lemma written_lit_app (led : bool) (t1 t2 : list event) :
  written_lit led (t1 ++ t2) =
  written_lit led t1 && written_lit (led_after led t1) t2.
Proof.
  revert led. induction t1 as [|e t1 IH]; intros led; [reflexivity|].
  destruct e; simpl; rewrite IH; try reflexivity.
  rewrite andb_assoc. reflexivity.
Qed.

Section Led.

Variable pow : float -> float -> float.

Lemma loop_led (mpr : MPR121) (g : globals) :
  led_after false (trace_of (loop pow mpr) g) = false /\
  written_lit false (trace_of (loop pow mpr) g) = true.
Proof. unfold_sketch. repeat split_if; split; reflexivity. Qed.

Lemma loops_led (polls : list MPR121) :
  forall g : globals,
    led_after false (trace_of (loops pow polls) g) = false /\
    written_lit false (trace_of (loops pow polls) g) = true.
Proof.
  induction polls as [|mpr polls IH]; intros g.
  - split; reflexivity.
  - rewrite trace_of_loops_cons, led_after_app, written_lit_app.
    destruct (loop_led mpr g) as [H1 H2].
    destruct (IH (state_of (loop pow mpr) g)) as [H3 H4].
    rewrite H1, H2, H3, H4. split; reflexivity.
Qed.

Lemma setup_led (mpr_begin : bool) (g : globals) :
  led_after false (trace_of (setup mpr_begin) g) = false /\
  written_lit false (trace_of (setup mpr_begin) g) = true.
Proof.
  unfold setup. unfold_sketch.
  destruct mpr_begin; simpl; repeat split_if; split; reflexivity.
Qed.

End Led.

(** X11.  The LED brackets the MIDI traffic: through [setup] and any number
    of iterations, every byte written to the MIDI port is written while the
    LED pin is high, and the pin is low again at the end. This holds from
    any values of the globals and with the LED low at the start. *)
Theorem led_is_lit_exactly_around_midi_bytes
  (pow : float -> float -> float) (polls : list MPR121) (g : globals) :
  written_lit false (trace_of (sketch pow true polls) g) = true /\
  led_after false (trace_of (sketch pow true polls) g) = false.
Proof.
  rewrite trace_of_sketch, written_lit_app, led_after_app.
  destruct (setup_led true g) as [H1 H2].
  destruct (loops_led pow polls g) as [H3 H4].
  rewrite H1, H2, H3, H4. split; reflexivity.
Qed.

(** ** What the mapper is called with *)

Lemma fscale_inputs_app (t1 t2 : list event) :
  fscale_inputs (t1 ++ t2) = fscale_inputs t1 ++ fscale_inputs t2.
Proof.
  induction t1 as [|e t1 IH]; simpl; [reflexivity|].
  destruct e; simpl; rewrite IH; reflexivity.
Qed.

Section CallSites.

Variable pow : float -> float -> float.

Lemma loop_calls_inside (mpr : MPR121) (g : globals) :
  Forall inside_range (fscale_inputs (trace_of (loop pow mpr) g)).
Proof.
  unfold_sketch.
  repeat split_if; bool_facts; simpl;
    repeat (constructor; [unfold inside_range; simpl; lia|]); constructor.
Qed.

Lemma loops_calls_inside (polls : list MPR121) :
  forall g : globals,
    Forall inside_range (fscale_inputs (trace_of (loops pow polls) g)).
Proof.
  induction polls as [|mpr polls IH]; intros g.
  - constructor.
  - rewrite trace_of_loops_cons, fscale_inputs_app.
    apply Forall_app. split; [apply loop_calls_inside | apply IH].
Qed.

End CallSites.

(** X12.  Every call of the mapper that the sketch makes, through [setup]
    and any number of iterations and from any values of the globals, has its
    input value inside its range: originalMin <= inputValue <= originalMax.
    So the range is never inverted. *)
Theorem mapper_input_is_inside_its_range
  (pow : float -> float -> float) (polls : list MPR121) (g : globals) :
  Forall inside_range (fscale_inputs (trace_of (sketch pow true polls) g)).
Proof.
  rewrite trace_of_sketch, fscale_inputs_app.
  apply Forall_app. split; [|apply loops_calls_inside].
  unfold setup. unfold_sketch. repeat split_if; constructor.
Qed.

(** ** The calibration range is the hull of the readings *)

Section ExactSteps.

Variable pow : float -> float -> float.

Lemma loop_pitch_exact (mpr : MPR121) (g : globals) :
  let g' := state_of (loop_pitch pow mpr) g in
  let l := getFilteredData mpr pin_pitch in
  level_pitch g' = l /\
  (l = level_pitch g ->
   min_level_pitch g' = min_level_pitch g /\
   max_level_pitch g' = max_level_pitch g) /\
  (l <> level_pitch g ->
   min_level_pitch g' = Z.min (min_level_pitch g) l /\
   max_level_pitch g' = Z.max (max_level_pitch g) l).
Proof.
  unfold_sketch.
  repeat split_if; bool_facts; repeat split; intros; try lia.
Qed.

Lemma loop_volume_exact (mpr : MPR121) (g : globals) :
  let g' := state_of (loop_volume pow mpr) g in
  let l := getFilteredData mpr pin_volume in
  level_volume g' = l /\
  (l = level_volume g ->
   min_level_volume g' = min_level_volume g /\
   max_level_volume g' = max_level_volume g) /\
  (l <> level_volume g ->
   min_level_volume g' = Z.min (min_level_volume g) l /\
   max_level_volume g' = Z.max (max_level_volume g) l).
Proof.
  unfold_sketch.
  repeat split_if; bool_facts; repeat split; intros; try lia.
Qed.

Lemma loop_pitch_channel_exact (mpr : MPR121) (g : globals) :
  let g' := state_of (loop pow mpr) g in
  let l := getFilteredData mpr pin_pitch in
  level_pitch g' = l /\
  (l = level_pitch g ->
   min_level_pitch g' = min_level_pitch g /\
   max_level_pitch g' = max_level_pitch g) /\
  (l <> level_pitch g ->
   min_level_pitch g' = Z.min (min_level_pitch g) l /\
   max_level_pitch g' = Z.max (max_level_pitch g) l).
Proof.
  intros g' l. subst g'. rewrite state_of_loop.
  set (g1 := state_of (loop_instrument mpr) g).
  destruct (loop_volume_frame pow mpr (state_of (loop_pitch pow mpr) g1))
    as (_ & _ & _ & Hl & Hmn & Hmx).
  rewrite Hl, Hmn, Hmx.
  assert (Hg1 : g1 = set_instrument (instrument g1) g)
    by apply loop_instrument_state.
  pose proof (loop_pitch_exact mpr g1) as H.
  rewrite Hg1 in H. simpl in H. rewrite <- Hg1 in H. exact H.
Qed.

Lemma loop_volume_channel_exact (mpr : MPR121) (g : globals) :
  let g' := state_of (loop pow mpr) g in
  let l := getFilteredData mpr pin_volume in
  level_volume g' = l /\
  (l = level_volume g ->
   min_level_volume g' = min_level_volume g /\
   max_level_volume g' = max_level_volume g) /\
  (l <> level_volume g ->
   min_level_volume g' = Z.min (min_level_volume g) l /\
   max_level_volume g' = Z.max (max_level_volume g) l).
Proof.
  intros g' l. subst g'. rewrite state_of_loop.
  set (g1 := state_of (loop_instrument mpr) g).
  set (g2 := state_of (loop_pitch pow mpr) g1).
  assert (Hg1 : g1 = set_instrument (instrument g1) g)
    by apply loop_instrument_state.
  destruct (loop_pitch_frame pow mpr g1) as (_ & _ & _ & Hl & Hmn & Hmx).
  fold g2 in Hl, Hmn, Hmx.
  assert (El : level_volume g2 = level_volume g)
    by (rewrite Hl, Hg1; reflexivity).
  assert (Emn : min_level_volume g2 = min_level_volume g)
    by (rewrite Hmn, Hg1; reflexivity).
  assert (Emx : max_level_volume g2 = max_level_volume g)
    by (rewrite Hmx, Hg1; reflexivity).
  pose proof (loop_volume_exact mpr g2) as H.
  rewrite El, Emn, Emx in H. exact H.
Qed.

End ExactSteps.

Section Hull.

Variable pow : float -> float -> float.
Variables level lo hi : globals -> Z.
Variable reading : MPR121 -> Z.

Hypothesis loop_exact : forall (mpr : MPR121) (g : globals),
  let g' := state_of (loop pow mpr) g in
  level g' = reading mpr /\
  (reading mpr = level g -> lo g' = lo g /\ hi g' = hi g) /\
  (reading mpr <> level g ->
   lo g' = Z.min (lo g) (reading mpr) /\ hi g' = Z.max (hi g) (reading mpr)).

Lemma loops_hi (polls : list MPR121) :
  forall g : globals,
    level g <= hi g ->
    hi (state_of (loops pow polls) g) = largest (hi g) (map reading polls).
Proof.
  induction polls as [|mpr polls IH]; intros g H; [reflexivity|].
  rewrite state_of_loops_cons.
  destruct (loop_exact mpr g) as (Hl & Hsame & Hnew).
  assert (E : hi (state_of (loop pow mpr) g) = Z.max (hi g) (reading mpr)).
  { destruct (Z.eq_dec (reading mpr) (level g)) as [e|e].
    - destruct (Hsame e) as [_ ->]. lia.
    - destruct (Hnew e) as [_ ->]. reflexivity. }
  rewrite IH by lia. rewrite E. reflexivity.
Qed.

Lemma loops_lo (polls : list MPR121) :
  forall g : globals,
    lo g <= level g ->
    lo (state_of (loops pow polls) g) = least (lo g) (map reading polls).
Proof.
  induction polls as [|mpr polls IH]; intros g H; [reflexivity|].
  rewrite state_of_loops_cons.
  destruct (loop_exact mpr g) as (Hl & Hsame & Hnew).
  assert (E : lo (state_of (loop pow mpr) g) = Z.min (lo g) (reading mpr)).
  { destruct (Z.eq_dec (reading mpr) (level g)) as [e|e].
    - destruct (Hsame e) as [-> _]. lia.
    - destruct (Hnew e) as [-> _]. reflexivity. }
  rewrite IH by lia. rewrite E. reflexivity.
Qed.

Lemma loops_lo_from_zero (polls : list MPR121) :
  forall g : globals,
    level g = 0 ->
    lo (state_of (loops pow polls) g) =
    least (lo g) (from_first_nonzero (map reading polls)).
Proof.
  induction polls as [|mpr polls IH]; intros g H; [reflexivity|].
  rewrite state_of_loops_cons. simpl.
  destruct (loop_exact mpr g) as (Hl & Hsame & Hnew).
  destruct (Z.eqb_spec (reading mpr) 0) as [e|e].
  - rewrite IH by congruence.
    destruct Hsame as [-> _]; [congruence | reflexivity].
  - rewrite loops_lo by (destruct Hnew as [-> _]; [congruence | lia]).
    destruct Hnew as [-> _]; [congruence | reflexivity].
Qed.

End Hull.

(** X13.  After [setup] and any run of polls, on each channel the stored
    maximum is the largest of 0 and all the readings, and the stored minimum
    is the least of 1000 and the readings from the first non-zero one on:
    the range is exactly the hull of what was read, capped by the two start
    values. *)
Theorem calibration_range_is_the_hull
  (pow : float -> float -> float) (polls : list MPR121) :
  let g := state_of (sketch pow true polls) initial in
  max_level_pitch g = largest 0 (pitch_readings polls) /\
  min_level_pitch g = least 1000 (from_first_nonzero (pitch_readings polls)) /\
  max_level_volume g = largest 0 (volume_readings polls) /\
  min_level_volume g =
    least 1000 (from_first_nonzero (volume_readings polls)).
Proof.
  intros g. subst g. rewrite state_of_sketch. repeat split.
  - apply (loops_hi pow level_pitch min_level_pitch max_level_pitch
             (fun mpr => getFilteredData mpr pin_pitch)
             (loop_pitch_channel_exact pow) polls initial).
    simpl. lia.
  - apply (loops_lo_from_zero pow level_pitch min_level_pitch max_level_pitch
             (fun mpr => getFilteredData mpr pin_pitch)
             (loop_pitch_channel_exact pow) polls initial).
    reflexivity.
  - apply (loops_hi pow level_volume min_level_volume max_level_volume
             (fun mpr => getFilteredData mpr pin_volume)
             (loop_volume_channel_exact pow) polls initial).
    simpl. lia.
  - apply (loops_lo_from_zero pow level_volume min_level_volume
             max_level_volume (fun mpr => getFilteredData mpr pin_volume)
             (loop_volume_channel_exact pow) polls initial).
    reflexivity.
Qed.

(** ** The mapper outside its ranges *)

(** The order of [SFcompare] is transitive. *)
Lemma SFltb_trans (x y z : float) :
  SFltb x y = true -> SFltb y z = true -> SFltb x z = true.
Proof.
  unfold SFltb.
  destruct x as [sx|sx| |sx mx ex], y as [sy|sy| |sy my ey],
    z as [sz|sz| |sz mz ez]; simpl;
    try discriminate;
    try (destruct sx; discriminate);
    try (destruct sy; discriminate);
    try (destruct sz; discriminate);
    try (destruct sx, sy; discriminate);
    try (destruct sy, sz; discriminate);
    try (destruct sx, sz; simpl; congruence);
    try (destruct sx, sy, sz; simpl; congruence).
  change (Pos.compare_cont Eq mx my) with (Pos.compare mx my).
  change (Pos.compare_cont Eq my mz) with (Pos.compare my mz).
  change (Pos.compare_cont Eq mx mz) with (Pos.compare mx mz).
  destruct sx, sy, sz; simpl; try discriminate; try reflexivity;
    destruct (Z.compare_spec ex ey), (Z.compare_spec ey ez),
      (Z.compare_spec ex ez);
    try discriminate; try reflexivity; try lia;
    destruct (Pos.compare_spec mx my), (Pos.compare_spec my mz),
      (Pos.compare_spec mx mz);
    simpl; try discriminate; try reflexivity; lia.
Qed.

Lemma lt_trans (x y z : float) :
  lt x y = true -> lt y z = true -> lt x z = true.
Proof.
  with_strategy transparent [lt] unfold lt. apply SFltb_trans.
Qed.

Lemma clamp_input_below (mn mx v : float) :
  lt v mn = true -> clamp_input mn mx v = clamp_input mn mx mn.
Proof.
  intros H. unfold clamp_input. rewrite H.
  destruct (lt mn mn); reflexivity.
Qed.

Lemma clamp_input_above (mn mx v : float) :
  lt mx v = true -> clamp_input mn mx v = clamp_input mn mx mx.
Proof.
  intros H. unfold clamp_input.
  destruct (lt v mn) eqn:Hv; cbv beta iota zeta.
  - rewrite !(lt_trans mx v mn H Hv). reflexivity.
  - rewrite H. destruct (lt mx mn) eqn:Hm.
    + rewrite Hm. reflexivity.
    + destruct (lt mx mx); reflexivity.
Qed.

(** X14.  [fscale] saturates: an input value below [originalMin] is mapped
    like [originalMin], and one above [originalMax] like [originalMax], for
    every [pow], every range (inverted or not) and every other argument. *)
Theorem fscale_saturates_outside_input_range
  (pow : float -> float -> float)
  (originalMin originalMax newBegin newEnd inputValue curve : float) :
  (lt inputValue originalMin = true ->
   fscale pow originalMin originalMax newBegin newEnd inputValue curve =
   fscale pow originalMin originalMax newBegin newEnd originalMin curve) /\
  (lt originalMax inputValue = true ->
   fscale pow originalMin originalMax newBegin newEnd inputValue curve =
   fscale pow originalMin originalMax newBegin newEnd originalMax curve).
Proof.
  split; intros H;
    with_strategy transparent [fscale] unfold fscale;
    unfold normalizedCurVal.
  - rewrite (clamp_input_below _ _ _ H). reflexivity.
  - rewrite (clamp_input_above _ _ _ H). reflexivity.
Qed.

(** The volume over the range 400..600: the level 300 maps like 400 and the
    level 700 like 600. *)
Lemma fscale_saturates_outside_input_range_witness :
  fscale pow_ref (of_Z 400) (of_Z 600) (of_Z 127) (of_Z 0) (of_Z 300)
    (of_Z (-10)) =
  fscale pow_ref (of_Z 400) (of_Z 600) (of_Z 127) (of_Z 0) (of_Z 400)
    (of_Z (-10)) /\
  fscale pow_ref (of_Z 400) (of_Z 600) (of_Z 127) (of_Z 0) (of_Z 700)
    (of_Z (-10)) =
  fscale pow_ref (of_Z 400) (of_Z 600) (of_Z 127) (of_Z 0) (of_Z 600)
    (of_Z (-10)).
Proof.
  split.
  - apply (proj1 (fscale_saturates_outside_input_range pow_ref (of_Z 400)
                    (of_Z 600) (of_Z 127) (of_Z 0) (of_Z 300) (of_Z (-10)))).
    vm_compute. reflexivity.
  - apply (proj2 (fscale_saturates_outside_input_range pow_ref (of_Z 400)
                    (of_Z 600) (of_Z 127) (of_Z 0) (of_Z 700) (of_Z (-10)))).
    vm_compute. reflexivity.
Defined.

Lemma ten_not_below_minus_ten :
  lt (of_Z 10) (of_Z (-10)) = false.
Proof. vm_compute. reflexivity. Qed.

Lemma curve_exponent_above (pow : float -> float -> float) (curve : float) :
  lt (of_Z 10) curve = true ->
  curve_exponent pow curve = curve_exponent pow (of_Z 10).
Proof.
  intros H. unfold curve_exponent. rewrite H.
  destruct (lt (of_Z 10) (of_Z 10)); reflexivity.
Qed.

Lemma curve_exponent_below (pow : float -> float -> float) (curve : float) :
  lt curve (of_Z (-10)) = true ->
  curve_exponent pow curve = curve_exponent pow (of_Z (-10)).
Proof.
  intros H. unfold curve_exponent.
  assert (E : lt (of_Z 10) curve = false).
  { destruct (lt (of_Z 10) curve) eqn:E; [|reflexivity].
    rewrite <- ten_not_below_minus_ten. symmetry.
    apply (lt_trans _ _ _ E H). }
  rewrite E, H, ten_not_below_minus_ten.
  destruct (lt (of_Z (-10)) (of_Z (-10))); reflexivity.
Qed.

(** X15.  The curve is limited to -10..10: a curve above 10 gives what the
    curve 10 gives and a curve below -10 what the curve -10 gives, for every
    [pow] and every other argument. *)
Theorem fscale_limits_the_curve
  (pow : float -> float -> float)
  (originalMin originalMax newBegin newEnd inputValue curve : float) :
  (lt (of_Z 10) curve = true ->
   fscale pow originalMin originalMax newBegin newEnd inputValue curve =
   fscale pow originalMin originalMax newBegin newEnd inputValue (of_Z 10)) /\
  (lt curve (of_Z (-10)) = true ->
   fscale pow originalMin originalMax newBegin newEnd inputValue curve =
   fscale pow originalMin originalMax newBegin newEnd inputValue
     (of_Z (-10))).
Proof.
  split; intros H; with_strategy transparent [fscale] unfold fscale.
  - rewrite (curve_exponent_above pow curve H). reflexivity.
  - rewrite (curve_exponent_below pow curve H). reflexivity.
Qed.

Lemma fscale_limits_the_curve_witness :
  fscale pow_ref (of_Z 400) (of_Z 600) (of_Z 127) (of_Z 0) (of_Z 500)
    (of_Z 25) =
  fscale pow_ref (of_Z 400) (of_Z 600) (of_Z 127) (of_Z 0) (of_Z 500)
    (of_Z 10) /\
  fscale pow_ref (of_Z 400) (of_Z 600) (of_Z 127) (of_Z 0) (of_Z 500)
    (of_Z (-25)) =
  fscale pow_ref (of_Z 400) (of_Z 600) (of_Z 127) (of_Z 0) (of_Z 500)
    (of_Z (-10)).
Proof.
  split.
  - apply (proj1 (fscale_limits_the_curve pow_ref (of_Z 400) (of_Z 600)
                    (of_Z 127) (of_Z 0) (of_Z 500) (of_Z 25))).
    vm_compute. reflexivity.
  - apply (proj2 (fscale_limits_the_curve pow_ref (of_Z 400) (of_Z 600)
                    (of_Z 127) (of_Z 0) (of_Z 500) (of_Z (-25)))).
    vm_compute. reflexivity.
Defined.

(** ** The mapper on a range of a single value *)

(** Two floats of which neither is below the other: one is a NaN, or both
    are zeros, or they are the same. *)
Lemma neither_below (x y : float) :
  SFltb x y = false -> SFltb y x = false ->
  x = S754_nan \/ y = S754_nan \/
  (exists sx sy, x = S754_zero sx /\ y = S754_zero sy) \/ x = y.
Proof.
  unfold SFltb.
  destruct x as [sx|sx| |sx mx ex], y as [sy|sy| |sy my ey]; simpl;
    auto;
    try (right; right; left; eexists; eexists; split; reflexivity);
    try (destruct sx; discriminate);
    try (destruct sy; discriminate);
    try (destruct sx, sy; try discriminate; auto).
  all: rewrite (Z.compare_antisym ex ey);
    change (Pos.compare_cont Eq mx my) with (Pos.compare mx my);
    change (Pos.compare_cont Eq my mx) with (Pos.compare my mx);
    rewrite (Pos.compare_antisym mx my);
    destruct (Z.compare_spec ex ey); simpl; try discriminate;
    destruct (Pos.compare_spec mx my); simpl; try discriminate;
    intros _ _; subst; auto.
Qed.

Lemma sub_same (x : float) :
  sub x x = S754_nan \/ sub x x = S754_zero false.
Proof.
  destruct x as [s|s| |s m e].
  - right. destruct s; reflexivity.
  - left. destruct s; reflexivity.
  - left. reflexivity.
  - right. unfold sub, SFsub. rewrite Z.sub_diag. reflexivity.
Qed.

Lemma sub_zeros (sx sy : bool) :
  exists s, sub (S754_zero sx) (S754_zero sy) = S754_zero s.
Proof. destruct sx, sy; eexists; reflexivity. Qed.

Lemma clamp_input_single (x v : float) :
  clamp_input x x v = x \/
  (clamp_input x x v = v /\ lt v x = false /\ lt x v = false).
Proof.
  unfold clamp_input.
  destruct (lt v x) eqn:Hv.
  - left. destruct (lt x x); reflexivity.
  - destruct (lt x v) eqn:Hx; [left | right]; auto.
Qed.

(** X16.  On a range whose two ends are the same float the normalised value
    is a NaN, whatever that float and whatever the input value: the span is
    zero (or a NaN) and the division is 0/0 (or has a NaN operand). *)
Theorem single_valued_range_normalises_to_nan (x inputValue : float) :
  normalizedCurVal x x inputValue = nan.
Proof.
  unfold normalizedCurVal, OriginalRange, nan.
  assert (Dn : forall z, div z S754_nan = S754_nan)
    by (intros z; destruct z; reflexivity).
  assert (Dz : forall s, div (S754_zero s) (S754_zero false) = S754_nan)
    by (intros s; reflexivity).
  destruct (sub_same x) as [E|E]; rewrite E; [apply Dn|].
  destruct (clamp_input_single x inputValue) as [C|(C & H1 & H2)];
    rewrite C.
  - rewrite E. apply Dz.
  - revert H1 H2. with_strategy transparent [lt] unfold lt. intros H1 H2.
    destruct (neither_below inputValue x H1 H2)
      as [->|[->|[(sv & sx & -> & ->)| ->]]].
    + reflexivity.
    + discriminate E.
    + destruct (sub_zeros sv sx) as [s ->]. apply Dz.
    + rewrite E. apply Dz.
Qed.

(** ** Pitch and volume do not interfere *)

Section Independent.

Variable pow : float -> float -> float.

Lemma loop_pitch_after_volume (mpr mpr' : MPR121) (g : globals) :
  trace_of (loop_pitch pow mpr) (state_of (loop_volume pow mpr') g) =
  trace_of (loop_pitch pow mpr) g.
Proof. unfold_sketch. repeat split_if; reflexivity. Qed.

Lemma loop_volume_after_pitch (mpr mpr' : MPR121) (g : globals) :
  trace_of (loop_volume pow mpr) (state_of (loop_pitch pow mpr') g) =
  trace_of (loop_volume pow mpr) g.
Proof. unfold_sketch. repeat split_if; reflexivity. Qed.

Lemma loop_pitch_volume_commute (mpr mpr' : MPR121) (g : globals) :
  state_of (loop_pitch pow mpr) (state_of (loop_volume pow mpr') g) =
  state_of (loop_volume pow mpr') (state_of (loop_pitch pow mpr) g).
Proof. unfold_sketch. repeat split_if; try discriminate; reflexivity. Qed.

End Independent.

(** X17.  The pitch part and the volume part of [loop] do not interfere:
    what either of them writes and calls is the same whether or not the
    other has run before it, on any snapshot, and the two can be run in
    either order with the same final globals. *)
Theorem pitch_and_volume_are_independent
  (pow : float -> float -> float) (mpr mpr' : MPR121) (g : globals) :
  trace_of (loop_pitch pow mpr) (state_of (loop_volume pow mpr') g) =
    trace_of (loop_pitch pow mpr) g /\
  trace_of (loop_volume pow mpr') (state_of (loop_pitch pow mpr) g) =
    trace_of (loop_volume pow mpr') g /\
  state_of (loop_pitch pow mpr) (state_of (loop_volume pow mpr') g) =
    state_of (loop_volume pow mpr') (state_of (loop_pitch pow mpr) g).
Proof.
  split; [apply loop_pitch_after_volume|].
  split; [apply loop_volume_after_pitch | apply loop_pitch_volume_commute].
Qed.

(** ** Start-up *)

(** X18.  When the touch driver does not come up, the sketch writes nothing,
    calls nothing and assigns nothing, whatever is polled. When it does, the
    sketch first pulses the reset pin low and high and then sends the
    control change 7 with the current [volume] (0 at power-up), the bank
    select 0 and the program change for [instrument], in two bytes; the
    iterations of [loop] follow. *)
Theorem sketch_start_up
  (pow : float -> float -> float) (polls : list MPR121) (g : globals) :
  trace_of (sketch pow false polls) g = [] /\
  state_of (sketch pow false polls) g = g /\
  exists rest : list event,
    trace_of (sketch pow true polls) g =
      DigitalWrite resetMIDI false :: DigitalWrite resetMIDI true ::
      rest ++ trace_of (loops pow polls) g /\
    midi rest = [0xB0; 0x07; volume g; 0xB0; 0; 0; 0xC0; instrument g] /\
    fscale_inputs rest = [].
Proof.
  split; [reflexivity|]. split; [reflexivity|].
  exists [DigitalWrite ledPin true; SerialWrite 0xB0; SerialWrite 0x07;
          SerialWrite (volume g); DigitalWrite ledPin false;
          DigitalWrite ledPin true; SerialWrite 0xB0; SerialWrite 0;
          SerialWrite 0; DigitalWrite ledPin false;
          DigitalWrite ledPin true; SerialWrite 0xC0;
          SerialWrite (instrument g); DigitalWrite ledPin false].
  rewrite trace_of_sketch.
  split; [|split; reflexivity].
  unfold setup. unfold_sketch. reflexivity.
Qed.
